(** * CommDy individual metrics (script/metrics.py)

    A shallow embedding of the ten per-individual metrics of
    [script/metrics.py] and of the assembler [compute_individual_metrics].

    Modelling conventions.
    - A table ([DataFrame]) is the list of its rows in table order; the
      row label of pandas is the position in the list.
    - A nullable cell is [option Z]; [None] is the pandas missing value
      (NaN).  [time] and [individual] are never missing.
    - The five columns hold 64-bit integers.  A column with a missing
      value is a float64 column, whose entries are values float64 holds;
      as soon as one column is float64,
      [iterrows()] and [apply(..., 1)] hand out every row in float64
      ([read]), so an integer that float64 cannot represent is rounded
      ([to_float]).  [shift()] and a comparison of two columns of which
      one is float64 compare in float64 too.
    - A Python [dict] is a [gmap], a Python [set] a [gset].
    - Python floats are exact rationals kept in lowest terms ([Qred]), so
      the rounding of float arithmetic is not modelled; [0.0] is [0],
      [1.0] is [1].  Bounds on averages are stated at integers only.
    - A raised exception is the [Raise] case of [result]. *)

From Stdlib Require Import ZArith QArith Lia.
From stdpp Require Import base option list sorting gmap.

Set Warnings "-clear-no-such-hyp".
Local Open Scope Z_scope.

(** ** Exceptions *)

Inductive exn : Set :=
  | KeyError
  | ZeroDivisionError
  | StopIteration
  | ValueError.

Inductive result (A : Type) : Type :=
  | Ok (a : A)
  | Raise (e : exn).
Arguments Ok {A} a.
Arguments Raise {A} e.

#[global] Instance result_ret : MRet result := λ A a, Ok a.
#[global] Instance result_bind : MBind result := λ A B f m,
  match m with
  | Ok a => f a
  | Raise e => Raise e
  end.
#[global] Instance result_fmap : FMap result := λ A B f m,
  match m with
  | Ok a => Ok (f a)
  | Raise e => Raise e
  end.

(** ** The observation table *)

Abbreviation cell := (option Z) (only parsing).

Record Row : Set := mkRow {
  time : Z;
  group : cell;
  individual : Z;
  gcolor : cell;
  icolor : cell
}.

Abbreviation DataFrame := (list Row) (only parsing).

#[global] Instance Row_eq_dec : EqDecision Row.
Proof. solve_decision. Defined.

(** [pd.isnull] / [pd.notna] on a cell. *)
Definition isnull (c : cell) : bool :=
  match c with None => true | Some _ => false end.
Definition notna (c : cell) : bool := negb (isnull c).

(** [a != b] and [a == b] on cells: NaN differs from everything, itself
    included. *)
Definition cell_ne (a b : cell) : bool :=
  match a, b with
  | Some x, Some y => negb (x =? y)
  | _, _ => true
  end.
Definition cell_eq (a b : cell) : bool :=
  match a, b with
  | Some x, Some y => x =? y
  | _, _ => false
  end.

(** A row survives [dropna()] when none of its cells is missing. *)
Definition complete (r : Row) : bool :=
  notna (group r) && notna (gcolor r) && notna (icolor r).
Definition dropna (df : DataFrame) : DataFrame :=
  filter (λ r, complete r = true) df.

(** ** Column types and the reading of rows *)

(** The float64 nearest to a 64-bit integer, ties to the even
    significand: integers up to [2^53] in absolute value are kept, larger
    ones keep their 53 leading bits. *)
Definition to_float (z : Z) : Z :=
  let a := Z.abs z in
  if a <=? 2 ^ 53 then z
  else
    let e := Z.log2 a - 52 in
    let q := a / 2 ^ e in
    let rest := a mod 2 ^ e in
    let half := 2 ^ (e - 1) in
    let q' := if rest <? half then q
              else if half <? rest then q + 1
              else if Z.even q then q else q + 1 in
    Z.sgn z * (q' * 2 ^ e).

Definition fcast (c : cell) : cell := to_float <$> c.

(** A row in float64. *)
Definition upcast (r : Row) : Row :=
  mkRow (to_float (time r)) (fcast (group r)) (to_float (individual r))
        (fcast (gcolor r)) (fcast (icolor r)).

(** Some column of the table is float64: some cell is missing. *)
Definition has_na (df : DataFrame) : bool :=
  bool_decide (Exists (λ r, complete r = false) df).

(** The column [col] of the table is float64. *)
Definition col_na (col : Row → cell) (df : DataFrame) : bool :=
  bool_decide (Exists (λ r, col r = None) df).

(** A row of (a part of) the table [df] as [iterrows()] and
    [apply(..., 1)] hand it out: parts of a table keep its column
    types. *)
Definition read (df : DataFrame) (r : Row) : Row :=
  if has_na df then upcast r else r.
Definition iterrows (df : DataFrame) (frame : list Row) : list Row :=
  read df <$> frame.

(** The rows are read as they are stored: no column is float64, or no
    value is changed by the conversion to float64. *)
Definition plain (df : DataFrame) : Prop :=
  has_na df = false ∨ Forall (λ r, upcast r = r) df.

(** ** Numeric helpers *)

Definition sum (items : list Q) : Q := foldl Qplus 0%Q items.

Definition len {A} (l : list A) : Z := Z.of_nat (length l).

(** [float(a) / b]. *)
Definition truediv (a b : Q) : result Q :=
  if Qeq_bool b 0 then Raise ZeroDivisionError else Ok (Qred (a / b)).

(** [avg]: the average of the list, [0.0] when empty. *)
Definition avg (items : list Q) : Q :=
  if len items =? 0 then 0%Q
  else Qred (sum items / inject_Z (len items)).

(** ** Grouping *)

(** [Series.unique()]: the distinct values in order of first appearance. *)
Fixpoint unique `{EqDecision A} (l : list A) : list A :=
  match l with
  | [] => []
  | x :: l' => x :: filter (λ y, y ≠ x) (unique l')
  end.

(** [df.groupby('individual')]: one group per individual, group keys
    sorted, rows of a group in table order. *)
Definition individuals (df : DataFrame) : list Z :=
  merge_sort Z.le (unique (individual <$> df)).
Definition rows_of (i : Z) (df : DataFrame) : DataFrame :=
  filter (λ r, individual r = i) df.
Definition groupby_individual (df : DataFrame) : list (Z * DataFrame) :=
  (λ i, (i, rows_of i df)) <$> individuals df.

(** [df.groupby(key)] where only the association from group key to group
    is observed (a dict is built from it): [groupby] drops the rows whose
    key has a missing component; [null] tells which keys those are. *)
Definition grouped `{EqDecision K} (key : Row → K) (null : K → bool)
    (df : DataFrame) : list (K * DataFrame) :=
  (λ k, (k, filter (λ r, key r = k) df))
    <$> unique (filter (λ k, null k = false) (key <$> df)).

(** A grouped aggregate turned into a dict ([groupby(key)...to_dict()], or
    a dict comprehension over the groups). *)
Definition grouped_dict `{Countable K} {V} (key : Row → K) (null : K → bool)
    (agg : DataFrame → V) (df : DataFrame) : gmap K V :=
  list_to_map (prod_map id agg <$> grouped key null df).

(** Subscripting a dict. *)
Definition getitem `{Countable K} {V} (d : gmap K V) (k : K) : result V :=
  match d !! k with
  | Some v => Ok v
  | None => Raise KeyError
  end.

(** [max] and [min] of a Python iterable; both reject the empty one. *)
Definition py_max (l : list Z) : result Z :=
  match l with
  | [] => Raise ValueError
  | x :: l' => Ok (foldl Z.max x l')
  end.
Definition py_min (l : list Z) : result Z :=
  match l with
  | [] => Raise ValueError
  | x :: l' => Ok (foldl Z.min x l')
  end.

(** The pandas mean of a float column without missing values. *)
Definition mean (xs : list Q) : Q := Qred (sum xs / inject_Z (len xs)).

(** The pandas mean of a float column, missing values skipped; the mean
    of no value at all is itself missing. *)
Definition nanmean (xs : list (option Q)) : option Q :=
  match omap id xs with
  | [] => None
  | vs => Some (mean vs)
  end.

(** Keys of the precomputed dicts, as the source builds them from cells. *)
Definition time_group (r : Row) : Z * cell := (time r, group r).
Definition time_icolor (r : Row) : Z * cell := (time r, icolor r).
Definition null_snd (k : Z * cell) : bool := isnull k.2.

(** ** adjacent_pairs *)

Fixpoint pairs_from {A} (prev : A) (it : list A) : list (A * A) :=
  match it with
  | [] => []
  | curr :: it' => (prev, curr) :: pairs_from curr it'
  end.

(** [prev = next(it)] raises on an empty iterable. *)
Definition adjacent_pairs {A} (items : list A) : result (list (A * A)) :=
  match items with
  | [] => Raise StopIteration
  | prev :: it => Ok (pairs_from prev it)
  end.

(** ** absenteeism *)

(** [df[['time','gcolor']].drop_duplicates().dropna().groupby('time')]
    collected into sets: dropping duplicate rows does not change the sets. *)
Definition time_gcolors (df : DataFrame) : gmap Z (gset cell) :=
  grouped_dict time (λ _, false) (λ g, list_to_set (gcolor <$> g))
    (filter (λ r, notna (gcolor r) = true) df).

Fixpoint absent_loop (tg : gmap Z (gset cell)) (rows : list Row)
    (num_absent : Z) : result Z :=
  match rows with
  | [] => Ok num_absent
  | row :: rest =>
      let my_gcolor := gcolor row in
      let my_color := icolor row in
      gcolors ← getitem tg (time row);
      if cell_ne my_gcolor my_color && bool_decide (my_color ∈ gcolors)
      then absent_loop tg rest (num_absent + 1)
      else absent_loop tg rest num_absent
  end.

Definition absenteeism (df : DataFrame) : result (list Q) :=
  let tg := time_gcolors df in
  mapM (λ '(_, grp),
          num_absent ← absent_loop tg (iterrows df grp) 0;
          truediv (inject_Z num_absent) (inject_Z (len grp)))
       (groupby_individual df).

(** ** inquisitiveness *)

Fixpoint visit_loop (rows : list Row) (num_visit : Z) : Z :=
  match rows with
  | [] => num_visit
  | row :: rest =>
      let my_gcolor := gcolor row in
      let my_color := icolor row in
      if cell_ne my_gcolor my_color && notna my_gcolor
      then visit_loop rest (num_visit + 1)
      else visit_loop rest num_visit
  end.

Definition inquisitiveness (df : DataFrame) : result (list Q) :=
  mapM (λ '(_, grp),
          truediv (inject_Z (visit_loop (iterrows df grp) 0))
                  (inject_Z (len (dropna grp))))
       (groupby_individual df).

(** ** community_stay *)

(** The loop [for i in range(1, len(my_colors))]: [prev] is
    [my_colors[i-1]], [colors] the entries from position [i] on. *)
Fixpoint stay_loop (prev : cell) (colors : list cell) (i offset : Z)
    (xs : list Z) : list Z * Z :=
  match colors with
  | [] => (xs, offset)
  | c :: rest =>
      if cell_eq c prev then stay_loop c rest (i + 1) offset xs
      else stay_loop c rest (i + 1) i (xs ++ [i - offset])
  end.

(** The list [xs] of run lengths at the end of the loop body. *)
Definition stay_runs (my_colors : list cell) : list Z :=
  match my_colors with
  | [] => []
  | c0 :: rest =>
      let '(xs, offset) := stay_loop c0 rest 1 0 [] in
      xs ++ [len my_colors - offset]
  end.

Definition community_stay (df : DataFrame) : list Q :=
  (λ '(_, grp),
     let my_colors := icolor <$> grp in
     if len my_colors =? 0 then 0%Q
     else avg (inject_Z <$> stay_runs my_colors))
  <$> groupby_individual df.

(** ** compute_subgroups *)

(** The body of the loop: the individual of the row joins the set stored
    under the row's [(time, group, icolor)]. *)
Definition add_row (community_subgroups : gmap (Z * cell * cell) (gset Z))
    (row : Row) : gmap (Z * cell * cell) (gset Z) :=
  let '(t, g, i, c) := (time row, group row, individual row, icolor row) in
  match community_subgroups !! (t, g, c) with
  | Some members => <[(t, g, c) := members ∪ {[i]}]> community_subgroups
  | None => <[(t, g, c) := {[i]}]> community_subgroups
  end.

(** The dict from [(time, group, icolor)] to the set of individuals seen
    with that key among the rows that survive [dropna()], keys and
    individuals as [iterrows()] reads them. *)
Definition compute_subgroups (df : DataFrame) : gmap (Z * cell * cell) (gset Z) :=
  foldl add_row ∅ (iterrows df (dropna df)).

(** ** avg_num_peers *)

Definition avg_num_peers (df : DataFrame)
    (community_subgroups : gmap (Z * cell * cell) (gset Z)) : result (list Q) :=
  mapM (λ '(_, grp),
          xs ← mapM (λ row,
                       let g := group row in
                       let t := time row in
                       let ic := icolor row in
                       members ← getitem community_subgroups (t, g, ic);
                       mret (inject_Z (Z.of_nat (size members) - 1)))
                    (iterrows df (dropna grp));
          mret (avg xs))
       (groupby_individual df).

(** ** peer_synchrony *)

Definition synchrony_step (community_subgroups : gmap (Z * cell * cell) (gset Z))
    (prev_row curr_row : Row) : result Q :=
  let '(t1, g1, c1) := (time prev_row, group prev_row, icolor prev_row) in
  let '(t2, g2, c2) := (time curr_row, group curr_row, icolor curr_row) in
  if isnull g1 || isnull g2 then Ok 0%Q
  else
    members1 ← getitem community_subgroups (t1, g1, c1);
    members2 ← getitem community_subgroups (t2, g2, c2);
    if Z.of_nat (size members2) =? 1 then Ok 0%Q
    else truediv (inject_Z (Z.of_nat (size (members1 ∩ members2))) - 1)
                 (inject_Z (Z.of_nat (size members2)) - 1).

Definition peer_synchrony (df : DataFrame)
    (community_subgroups : gmap (Z * cell * cell) (gset Z)) : result (list Q) :=
  mapM (λ '(_, grp),
          pairs ← adjacent_pairs (iterrows df grp);
          xs ← mapM (λ '(prev_row, curr_row),
                       synchrony_step community_subgroups prev_row curr_row)
                    pairs;
          mret (avg xs))
       (groupby_individual df).

(** ** group_size *)

(** [df.dropna().apply(f, 1)] is a column of values only when the frame
    has a row; on a frame without rows [apply] hands back the (empty)
    frame itself, which the [DataFrame] constructor then refuses as a
    column.  The column carries the row labels of the complete rows, so
    aligning it with [df['individual']] leaves a missing value at every
    other row.  The lambda sees the row as [apply(..., 1)] reads it; the
    individual comes from the column.  The final
    [groupby('individual')[...].mean()] skips the missing values. *)
Definition group_size (df : DataFrame) : result (list (option Q)) :=
  let group_size := grouped_dict time_group null_snd len (dropna df) in
  if decide (dropna df = []) then Raise ValueError
  else
    col ← mapM (λ row, if complete row
                        then let x := read df row in
                             v ← getitem group_size (time x, group x);
                             mret (individual row, Some (inject_Z v))
                        else mret (individual row, None))
               df;
    mret ((λ i, nanmean (snd <$> filter (λ p, p.1 = i) col)) <$> individuals df).

(** ** group_homogeneity *)

(** [(df['gcolor'] == df['icolor']).astype(float)] at one row: the two
    columns are compared in float64 when one of them is float64. *)
Definition homogeneity (df : DataFrame) (r : Row) : Q :=
  let eq := if col_na gcolor df || col_na icolor df
            then cell_eq (fcast (gcolor r)) (fcast (icolor r))
            else cell_eq (gcolor r) (icolor r) in
  if eq then 1%Q else 0%Q.

(** The frame [d] has the columns time, group and homogeneity only, so
    its [dropna()] drops the rows without a group. *)
Definition homogeneity_dict (df : DataFrame) : gmap (Z * cell) Q :=
  grouped_dict time_group null_snd (λ g, mean (homogeneity df <$> g))
    (filter (λ r, notna (group r) = true) df).

Definition group_homogeneity (df : DataFrame) : result (list Q) :=
  let h := homogeneity_dict df in
  mapM (λ '(_, grp),
          xs ← mapM (λ row, getitem h (time row, group row))
                    (iterrows df (dropna grp));
          mret (avg xs))
       (groupby_individual df).

(** ** individual_apparency *)

Definition time_index (df : DataFrame) : gmap Z Z :=
  list_to_map (imap (λ i t, (t, Z.of_nat i)) (unique (time <$> df))).

Definition diff (time_index : gmap Z Z) (t2 t1 : Z) : result Z :=
  a ← getitem time_index t2;
  b ← getitem time_index t1;
  mret (a - b + 1).

Definition community_apparency (df : DataFrame) : result (gmap cell Z) :=
  let ti := time_index df in
  items ← mapM (λ '(ic, grp),
                  hi ← py_max (time <$> grp);
                  lo ← py_min (time <$> grp);
                  d ← diff ti hi lo;
                  mret (ic, d))
               (grouped icolor isnull df);
  mret (list_to_map items).

(** [set(group['icolor'].values)] is walked in some order; the average
    does not depend on it.  A missing colour is an element of that set. *)
Definition individual_apparency (df : DataFrame) : result (list Q) :=
  ca ← community_apparency df;
  mapM (λ '(_, grp),
          xs ← mapM (λ ic, inject_Z <$> getitem ca ic) (unique (icolor <$> grp));
          mret (avg xs))
       (groupby_individual df).

(** ** cyclicity *)

(** [colors.shift()]: every entry moves one place down, a missing value
    enters at the top. *)
Definition shift (colors : list cell) : list cell :=
  match colors with
  | [] => []
  | _ => None :: removelast colors
  end.

(** [colors[colors.shift() != colors]]: the shifted column is float64, so
    the comparison is in float64. *)
Definition consecutive_uniques (colors : list cell) : list cell :=
  snd <$> filter (λ p, cell_ne (fcast p.1) (fcast p.2) = true)
            (zip (shift colors) colors).

(** [Series.count()] and [Series.nunique()] leave missing values out. *)
Definition count (s : list cell) : Z := len (omap id s).
Definition nunique (s : list cell) : Z := len (unique (omap id s)).

Definition cyclicity (df : DataFrame) : list Z :=
  (λ '(_, grp),
     let colors := icolor <$> grp in
     count (consecutive_uniques colors) - nunique (icolor <$> grp))
  <$> groupby_individual df.

(** ** community_size *)

(** The local [value] of the source is computed and never read. *)
Definition community_size (df : DataFrame) : result (list Q) :=
  let size := grouped_dict time_icolor null_snd len df in
  mapM (λ '(_, grp),
          xs ← mapM (λ row,
                       let t := time row in
                       let c := icolor row in
                       inject_Z <$> getitem size (t, c))
                    (iterrows df grp);
          mret (avg xs))
       (groupby_individual df).

(** ** compute_individual_metrics *)

Record Metrics : Type := mkMetrics {
  m_individual : list Z;
  m_absenteeism : list Q;
  m_inquisitiveness : list Q;
  m_community_stay : list Q;
  m_avg_num_peers : list Q;
  m_peer_synchrony : list Q;
  m_group_size : list (option Q);
  m_group_homogeneity : list Q;
  m_individual_apparency : list Q;
  m_cyclicity : list Z;
  m_community_size : list Q
}.

(** The columns are computed in the order of the source, so the first
    metric that raises decides the exception.  The final [pd.DataFrame]
    refuses columns of different lengths. *)
Definition compute_individual_metrics (df : DataFrame) : result Metrics :=
  let community_subgroups := compute_subgroups df in
  let c0 := unique (individual <$> df) in
  c1 ← absenteeism df;
  c2 ← inquisitiveness df;
  let c3 := community_stay df in
  c4 ← avg_num_peers df community_subgroups;
  c5 ← peer_synchrony df community_subgroups;
  c6 ← group_size df;
  c7 ← group_homogeneity df;
  c8 ← individual_apparency df;
  let c9 := cyclicity df in
  c10 ← community_size df;
  if bool_decide (Forall (λ n, n = length c0)
       [length c1; length c2; length c3; length c4; length c5; length c6;
        length c7; length c8; length c9; length c10])
  then mret (mkMetrics c0 c1 c2 c3 c4 c5 c6 c7 c8 c9 c10)
  else Raise ValueError.

(** * Reference definitions

    The properties below compare the metrics with definitions that count
    directly on the table.  Definitions named [_claimed] follow the wording
    of the specification; the others describe what the code computes. *)

(** ** inquisitiveness *)

(** The individual's rows whose group colour is present and differs from
    its own colour (a missing own colour differs from every colour). *)
Definition visits (i : Z) (df : DataFrame) : Z :=
  len (filter (λ r, is_Some (gcolor r) ∧ gcolor r ≠ icolor r) (rows_of i df)).

(** The individual's rows without any missing field. *)
Definition complete_rows (i : Z) (df : DataFrame) : Z :=
  len (dropna (rows_of i df)).

(** Specification wording: visiting rows over rows with a present own
    colour, [0.0] when there is no such row. *)
Definition inquisitiveness_claimed (df : DataFrame) : list Q :=
  (λ i,
     let own := filter (λ r, is_Some (icolor r)) (rows_of i df) in
     let visiting := filter (λ r, icolor r ≠ gcolor r) own in
     if len own =? 0 then 0%Q
     else Qred (inject_Z (len visiting) / inject_Z (len own)))
  <$> individuals df.

(** ** group_homogeneity *)

(** Among all rows of a (time, group), the share of rows whose two colours
    are present and equal. *)
Definition homogeneous_fraction (df : DataFrame) (t : Z) (g : cell) : Q :=
  let members := filter (λ r, time r = t ∧ group r = g) df in
  Qred (inject_Z (len (filter (λ r, is_Some (gcolor r) ∧ gcolor r = icolor r) members))
        / inject_Z (len members)).

(** Specification wording: the share is taken among the rows of the
    (time, group) whose two colours are present, and averaged over the
    individual's rows whose two colours are present. *)
Definition both_colors (r : Row) : Prop := is_Some (gcolor r) ∧ is_Some (icolor r).
#[global] Instance both_colors_dec r : Decision (both_colors r).
Proof. unfold both_colors. apply _. Defined.

Definition homogeneous_fraction_claimed (df : DataFrame) (t : Z) (g : cell) : Q :=
  let members := filter both_colors (filter (λ r, time r = t ∧ group r = g) df) in
  Qred (inject_Z (len (filter (λ r, gcolor r = icolor r) members))
        / inject_Z (len members)).

Definition group_homogeneity_claimed (df : DataFrame) : list Q :=
  (λ i, avg ((λ r, homogeneous_fraction_claimed df (time r) (group r))
               <$> filter both_colors (rows_of i df)))
  <$> individuals df.

(** ** group_size *)

(** The rows of a (time, group) that have no missing field. *)
Definition complete_members (df : DataFrame) (t : Z) (g : cell) : Z :=
  len (filter (λ r, time r = t ∧ group r = g) (dropna df)).

(** Specification wording: all rows of the (time, group) count, the
    average runs over the individual's rows with a group, and is [0.0]
    when there is none. *)
Definition group_size_claimed (df : DataFrame) : list Q :=
  (λ i, avg ((λ r, inject_Z (len (filter (λ r', time r' = time r ∧ group r' = group r) df)))
               <$> filter (λ r, is_Some (group r)) (rows_of i df)))
  <$> individuals df.

(** ** cyclicity *)

(** The maximal blocks of consecutive equal colours of a colour sequence;
    a missing entry ends the block before it and belongs to no block. *)
Fixpoint color_runs (colors : list cell) : list (list Z) :=
  match colors with
  | [] => []
  | None :: rest => color_runs rest
  | Some c :: rest =>
      let runs := color_runs rest in
      match head rest, runs with
      | Some (Some c'), run :: runs' =>
          if decide (c = c') then (c :: run) :: runs' else [c] :: runs
      | _, _ => [c] :: runs
      end
  end.

(** The run starts that [cyclicity] counts, with [prev] the entry before
    the sequence. *)
Definition run_starts (prev : cell) (colors : list cell) : Z :=
  count (snd <$> filter (λ p, cell_ne p.1 p.2 = true) (zip (prev :: colors) colors)).

(** Whether the sequence begins with the colour [prev]. *)
Definition continues (prev : cell) (colors : list cell) : bool :=
  match prev, colors with
  | Some x, Some y :: _ => x =? y
  | _, _ => false
  end.

(** The distinct colours of a colour sequence. *)
Definition color_set (colors : list cell) : gset Z := list_to_set (omap id colors).

(** Specification wording: the number of runs that [community_stay]
    delimits, minus the number of distinct colours. *)
(** The colours of a table are exact when each of them is a value that
    float64 holds, so that the comparison with the shifted column sees
    them as they are stored. *)
Definition exact_colors (df : DataFrame) : Prop :=
  Forall (λ r, fcast (icolor r) = icolor r) df.

Definition cyclicity_claimed (df : DataFrame) : list Z :=
  (λ i, let colors := icolor <$> rows_of i df in
        len (stay_runs colors) - Z.of_nat (size (color_set colors)))
  <$> individuals df.

(** ** Subgroups *)

(** The key under which a row enters the subgroup index. *)
Definition subgroup_key (r : Row) : Z * cell * cell := (time r, group r, icolor r).

(** The individuals of the complete rows with a given key, rows as
    [iterrows()] reads them. *)
Definition subgroup (df : DataFrame) (k : Z * cell * cell) : gset Z :=
  list_to_set
    (individual <$> filter (λ r, subgroup_key r = k) (iterrows df (dropna df))).

(** ** individual_apparency *)

(** The 0-based position of the first occurrence of [t] in [l]. *)
Fixpoint index_of (t : Z) (l : list Z) : Z :=
  match l with
  | [] => 0
  | x :: l' => if decide (x = t) then 0 else 1 + index_of t l'
  end.

(** The rank of a time: its position among the distinct times in order of
    first occurrence. *)
Definition time_rank (df : DataFrame) (t : Z) : Z :=
  index_of t (unique (time <$> df)).

(** The times at which a colour is observed. *)
Definition times_of (df : DataFrame) (c : cell) : list Z :=
  time <$> filter (λ r, icolor r = c) df.

(** [hi] is the greatest and [lo] the least element of [l]. *)
Definition extremes (l : list Z) (hi lo : Z) : Prop :=
  hi ∈ l ∧ lo ∈ l ∧ ∀ y, y ∈ l → lo ≤ y ≤ hi.

(** The greatest and the least element of a non-empty list. *)
Definition greatest (l : list Z) : Z := foldr Z.max (default 0 (head l)) l.
Definition least (l : list Z) : Z := foldr Z.min (default 0 (head l)) l.

(** The duration of a colour: from the rank of the least time at which
    it is observed to the rank of the greatest, both included. *)
Definition duration (df : DataFrame) (c : cell) : Z :=
  time_rank df (greatest (times_of df c)) - time_rank df (least (times_of df c)) + 1.

(** ** peer_synchrony *)

(** Specification wording: the subgroup of a (time, group, colour) holds
    the individuals observed with it, among the rows whose group and own
    colour are present. *)
Definition subgroup_claimed (df : DataFrame) (k : Z * cell * cell) : gset Z :=
  list_to_set
    (individual <$> filter (λ r, subgroup_key r = k)
                      (filter (λ r, is_Some (group r) ∧ is_Some (icolor r)) df)).

(** Specification wording: the contribution of a pair of adjacent
    observations. *)
Definition synchrony_claimed (df : DataFrame) (p : Row * Row) : Q :=
  let '(prev, curr) := p in
  if isnull (group prev) || isnull (group curr) then 0%Q
  else
    let S1 := subgroup_claimed df (subgroup_key prev) in
    let S2 := subgroup_claimed df (subgroup_key curr) in
    if decide (size S2 = 1%nat) then 0%Q
    else Qred ((inject_Z (Z.of_nat (size (S1 ∩ S2))) - 1)
               / (inject_Z (Z.of_nat (size S2)) - 1)).

(** Specification wording: the mean contribution over the adjacent pairs
    of the individual's observations, in table order. *)
Definition peer_synchrony_claimed (df : DataFrame) : list Q :=
  (λ i, let rows := rows_of i df in
        avg (synchrony_claimed df <$> zip rows (tail rows)))
  <$> individuals df.

(** The rows with a group are complete: no lookup of [peer_synchrony]
    can then meet a row outside the index. *)
Definition guarded (df : DataFrame) : Prop :=
  Forall (λ r, is_Some (group r) → complete r = true) df.

(** * Example tables *)

(** Individual 2 appears before individual 1. *)
Definition table_order : DataFrame :=
  [ mkRow 1 (Some 10) 2 (Some 5) (Some 5);
    mkRow 2 (Some 10) 2 (Some 5) (Some 5);
    mkRow 1 (Some 10) 1 (Some 5) (Some 5) ].

(** One observation whose own colour is missing. *)
Definition table_no_icolor : DataFrame :=
  [ mkRow 1 (Some 10) 1 (Some 5) None ].

(** An individual whose own colour is missing at first. *)
Definition table_late_icolor : DataFrame :=
  [ mkRow 1 (Some 10) 1 (Some 5) None;
    mkRow 2 (Some 10) 1 (Some 5) (Some 5) ].

(** An individual whose group colour is missing at first. *)
Definition table_late_gcolor : DataFrame :=
  [ mkRow 1 (Some 10) 1 None (Some 5);
    mkRow 2 (Some 10) 1 (Some 5) (Some 5) ].

(** Two members of one group, the second without own colour. *)
Definition table_mixed_group : DataFrame :=
  [ mkRow 1 (Some 10) 1 (Some 5) (Some 5);
    mkRow 1 (Some 10) 2 (Some 5) None ].

(** An individual seen without own colour before and after holding one. *)
Definition table_gaps : DataFrame :=
  [ mkRow 1 (Some 10) 1 (Some 5) None;
    mkRow 2 (Some 10) 1 (Some 5) (Some 5);
    mkRow 3 (Some 10) 1 (Some 5) None ].

(** The two-step scenario: X, Y, Z are 1, 2, 3 and share colour 7; at
    time 1 all are in group 10, at time 2 X and Y are in group 11 and Z
    is in group 12. *)
Definition table_scenario : DataFrame :=
  [ mkRow 1 (Some 10) 1 (Some 7) (Some 7);
    mkRow 1 (Some 10) 2 (Some 7) (Some 7);
    mkRow 1 (Some 10) 3 (Some 7) (Some 7);
    mkRow 2 (Some 11) 1 (Some 7) (Some 7);
    mkRow 2 (Some 11) 2 (Some 7) (Some 7);
    mkRow 2 (Some 12) 3 (Some 7) (Some 7) ].

(** One individual holding two colours that float64 cannot tell apart. *)
Definition table_wide_colors : DataFrame :=
  [ mkRow 1 (Some 10) 1 (Some 5) (Some 9007199254740992);
    mkRow 2 (Some 10) 1 (Some 5) (Some 9007199254740993) ].

(** A time that float64 rounds, in a table with a missing value. *)
Definition table_wide_time : DataFrame :=
  [ mkRow 9007199254740993 (Some 10) 1 (Some 5) (Some 5);
    mkRow 1 None 2 None None ].

(** Two individuals that float64 cannot tell apart, in a table with a
    missing value. *)
Definition table_wide_individuals : DataFrame :=
  [ mkRow 1 (Some 10) 9007199254740992 (Some 5) (Some 5);
    mkRow 1 (Some 10) 9007199254740993 (Some 5) (Some 5);
    mkRow 1 None 1 None None ].

(** * Further reference definitions *)

(** ** absenteeism *)

(** Some row of the table at time [t] has group colour [c]. *)
Definition gcolor_at (df : DataFrame) (t : Z) (c : cell) : Prop :=
  Exists (λ r, time r = t ∧ gcolor r = c) df.

(** A row is absent: its own colour is present, differs from the colour
    of its group, and is the colour of some group of the same time. *)
Definition absent (df : DataFrame) (r : Row) : Prop :=
  is_Some (icolor r) ∧ gcolor r ≠ icolor r ∧ gcolor_at df (time r) (icolor r).

#[global] Instance absent_dec df r : Decision (absent df r).
Proof. unfold absent, gcolor_at. apply _. Defined.

(** Some row of the table at the time of [r] has a group colour. *)
Definition time_has_gcolor (df : DataFrame) (r : Row) : Prop :=
  Exists (λ r', time r' = time r ∧ is_Some (gcolor r')) df.

#[global] Instance time_has_gcolor_dec df r : Decision (time_has_gcolor df r).
Proof. unfold time_has_gcolor. apply _. Defined.

(** ** community_stay *)

(** The sum of a list of integers. *)
Definition total (xs : list Z) : Z := foldr Z.add 0 xs.

(** The number of missing entries of a colour sequence. *)
Definition missing (colors : list cell) : Z :=
  len (filter (λ c, c = None) colors).

(** The run boundaries that [community_stay] sees after an entry [prev]:
    the entries that are not equal to their predecessor. *)
Fixpoint changes (prev : cell) (colors : list cell) : Z :=
  match colors with
  | [] => 0
  | c :: rest => (if cell_eq c prev then 0 else 1) + changes c rest
  end.

(** * Properties *)

(** ** The error monad *)

Section result_lemmas.
Context {A B : Type}.
Implicit Types (f : A → result B) (l : list A).

Lemma mapM_Ok_fmap f (g : A → B) l :
  Forall (λ x, f x = Ok (g x)) l → mapM f l = Ok (g <$> l).
Proof.
  induction 1 as [|x l Hx _ IH]; [done|].
  cbn. rewrite Hx. cbn. by rewrite IH.
Qed.

Lemma mapM_Ok_length f l k : mapM f l = Ok k → length k = length l.
Proof.
  revert k. induction l as [|x l IH]; intros k; cbn.
  - by intros [= <-].
  - destruct (f x) as [y|]; cbn; [|done].
    destruct (mapM f l) as [k'|]; cbn; [|done].
    intros [= <-]. cbn. f_equal. by apply IH.
Qed.

Lemma mapM_fmap {C} f (g : C → A) (l : list C) :
  mapM f (g <$> l) = mapM (f ∘ g) l.
Proof. induction l as [|x l IH]; [done|]. cbn. by rewrite IH. Qed.

Lemma mapM_Raise f l x e :
  x ∈ l → f x = Raise e → ∃ e', mapM f l = Raise e'.
Proof.
  induction 1 as [x l|x y l _ IH]; intros Hx; cbn.
  - rewrite Hx. by eexists.
  - destruct (f y); cbn; [|by eexists].
    destruct (IH Hx) as [e' ->]. by eexists.
Qed.
Lemma mapM_Ok_lookup f l k (n : nat) x :
  mapM f l = Ok k → l !! n = Some x → ∃ y, k !! n = Some y ∧ f x = Ok y.
Proof.
  revert k n. induction l as [|a l IH]; intros k n; cbn; [done|].
  destruct (f a) as [b|] eqn:E; cbn; [|done].
  destruct (mapM f l) as [k'|]; cbn; [|done].
  intros [= <-]. destruct n as [|n]; cbn.
  - intros [= <-]. by exists b.
  - by apply IH.
Qed.

(** When [f] can only raise [e], so can [mapM f], and it does as soon as
    one element raises. *)
Lemma mapM_Raise_only f l e :
  (∀ x e', f x = Raise e' → e' = e) →
  ∀ e', mapM f l = Raise e' → e' = e.
Proof.
  intros Hf. induction l as [|x l IH]; intros e'; cbn; [done|].
  destruct (f x) as [y|e0] eqn:E; cbn.
  - destruct (mapM f l) as [k|e1]; cbn; [done|].
    intros [= <-]. by apply IH.
  - intros [= <-]. by apply (Hf x).
Qed.

Lemma mapM_Raise_only_elem f l e :
  (∀ x e', x ∈ l → f x = Raise e' → e' = e) →
  ∀ e', mapM f l = Raise e' → e' = e.
Proof.
  induction l as [|x l IH]; intros Hf e'; cbn; [done|].
  destruct (f x) as [y|e0] eqn:E; cbn.
  - destruct (mapM f l) as [k|e1]; cbn; [done|].
    intros [= <-]. apply IH; [|done]. intros z e'' Hz. apply Hf. by right.
  - intros [= <-]. apply (Hf x); [left|done].
Qed.

Lemma mapM_Raise_uniform f l x e :
  (∀ x e', f x = Raise e' → e' = e) →
  x ∈ l → f x = Raise e → mapM f l = Raise e.
Proof.
  intros Hf Hx Hfx. destruct (mapM_Raise f l x e Hx Hfx) as [e' He'].
  rewrite He'. f_equal. by apply (mapM_Raise_only f l e Hf).
Qed.
Lemma mapM_Raise_uniform_elem f l x e :
  (∀ x e', x ∈ l → f x = Raise e' → e' = e) →
  x ∈ l → f x = Raise e → mapM f l = Raise e.
Proof.
  intros Hf Hx Hfx. destruct (mapM_Raise f l x e Hx Hfx) as [e' He'].
  rewrite He'. f_equal. by apply (mapM_Raise_only_elem f l e Hf).
Qed.

Lemma mapM_Ok_Forall f (P : B → Prop) l :
  (∀ x, x ∈ l → ∃ y, f x = Ok y ∧ P y) →
  ∃ k, mapM f l = Ok k ∧ Forall P k.
Proof.
  induction l as [|x l IH]; intros Hf; cbn.
  - by exists [].
  - destruct (Hf x) as (y & Hy & HP); [left|].
    destruct IH as (k & Hk & Hall); [intros z Hz; apply Hf; by right|].
    exists (y :: k). rewrite Hy. cbn. rewrite Hk. cbn.
    split; [done|]. by constructor.
Qed.
End result_lemmas.

(** ** Reading rows *)

Lemma to_float_small (z : Z) : Z.abs z ≤ 2 ^ 53 → to_float z = z.
Proof.
  intros Hz. unfold to_float. cbv zeta.
  destruct (Z.leb_spec (Z.abs z) (2 ^ 53)); [done|lia].
Qed.

Lemma isnull_fcast (c : cell) : isnull (fcast c) = isnull c.
Proof. by destruct c. Qed.

Lemma complete_upcast (r : Row) : complete (upcast r) = complete r.
Proof. unfold complete, notna. cbn. by rewrite !isnull_fcast. Qed.

Lemma complete_read (df : DataFrame) (r : Row) :
  complete (read df r) = complete r.
Proof. unfold read. destruct (has_na df); [apply complete_upcast|done]. Qed.

Lemma isnull_group_read (df : DataFrame) (r : Row) :
  isnull (group (read df r)) = isnull (group r).
Proof. unfold read. destruct (has_na df); [apply isnull_fcast|done]. Qed.

Lemma isnull_icolor_read (df : DataFrame) (r : Row) :
  isnull (icolor (read df r)) = isnull (icolor r).
Proof. unfold read. destruct (has_na df); [apply isnull_fcast|done]. Qed.

Lemma individual_read (df : DataFrame) (p c : Row) :
  individual p = individual c → individual (read df p) = individual (read df c).
Proof. intros H. unfold read. destruct (has_na df); cbn; by rewrite H. Qed.

Lemma read_plain (df : DataFrame) (r : Row) :
  plain df → r ∈ df → read df r = r.
Proof.
  intros [Hna|Hex] Hr; unfold read.
  - by rewrite Hna.
  - rewrite Forall_forall in Hex. rewrite (Hex r Hr). by destruct (has_na df).
Qed.

Lemma iterrows_plain (df : DataFrame) (frame : list Row) :
  plain df → (∀ r, r ∈ frame → r ∈ df) → iterrows df frame = frame.
Proof.
  intros Hp Hsub. unfold iterrows.
  induction frame as [|r frame IH]; [done|]. cbn. f_equal.
  - apply read_plain; [done|]. apply Hsub. left.
  - apply IH. intros r' Hr'. apply Hsub. by right.
Qed.

Lemma has_na_complete (df : DataFrame) :
  Forall (λ r, complete r = true) df → has_na df = false.
Proof.
  intros Hall. unfold has_na. apply bool_decide_eq_false.
  rewrite Exists_exists. intros (r & Hr & Hc).
  rewrite Forall_forall in Hall. rewrite (Hall r Hr) in Hc. done.
Qed.

Lemma plain_complete (df : DataFrame) :
  Forall (λ r, complete r = true) df → plain df.
Proof. intros Hall. left. by apply has_na_complete. Qed.

Lemma rows_of_subseteq (df : DataFrame) (i : Z) (r : Row) :
  r ∈ rows_of i df → r ∈ df.
Proof. intros Hr. by apply list_elem_of_filter in Hr as [_ ?]. Qed.

Lemma dropna_subseteq (df : DataFrame) (r : Row) : r ∈ dropna df → r ∈ df.
Proof. intros Hr. by apply list_elem_of_filter in Hr as [_ ?]. Qed.

Lemma iterrows_rows_of (df : DataFrame) (i : Z) :
  plain df → iterrows df (rows_of i df) = rows_of i df.
Proof. intros Hp. apply iterrows_plain; [done|]. apply rows_of_subseteq. Qed.

Lemma iterrows_dropna_rows_of (df : DataFrame) (i : Z) :
  plain df → iterrows df (dropna (rows_of i df)) = dropna (rows_of i df).
Proof.
  intros Hp. apply iterrows_plain; [done|]. intros r Hr.
  by apply dropna_subseteq, rows_of_subseteq in Hr.
Qed.

Lemma iterrows_dropna (df : DataFrame) :
  plain df → iterrows df (dropna df) = dropna df.
Proof. intros Hp. apply iterrows_plain; [done|]. apply dropna_subseteq. Qed.

(** ** Distinct values and groups *)

Section unique_lemmas.
Context `{EqDecision A}.
Implicit Types (l : list A) (x : A).

Lemma elem_of_unique l x : x ∈ unique l ↔ x ∈ l.
Proof.
  induction l as [|y l IH]; [done|]. cbn.
  rewrite !elem_of_cons, list_elem_of_filter, IH.
  destruct (decide (x = y)); naive_solver.
Qed.

Lemma NoDup_unique l : NoDup (unique l).
Proof.
  induction l as [|y l IH]; cbn; [constructor|].
  constructor.
  - rewrite list_elem_of_filter. naive_solver.
  - by apply NoDup_filter.
Qed.
End unique_lemmas.

Lemma elem_of_individuals (df : DataFrame) (i : Z) :
  i ∈ individuals df ↔ ∃ r, r ∈ df ∧ individual r = i.
Proof.
  unfold individuals. rewrite merge_sort_Permutation, elem_of_unique.
  rewrite list_elem_of_fmap. naive_solver.
Qed.

Lemma NoDup_individuals (df : DataFrame) : NoDup (individuals df).
Proof.
  unfold individuals. rewrite merge_sort_Permutation. apply NoDup_unique.
Qed.

Lemma length_individuals (df : DataFrame) :
  length (individuals df) = length (unique (individual <$> df)).
Proof. unfold individuals. by rewrite merge_sort_Permutation. Qed.

Lemma rows_of_nonempty (df : DataFrame) (i : Z) :
  i ∈ individuals df → rows_of i df ≠ [].
Proof.
  rewrite elem_of_individuals. intros (r & Hr & Hi) Hnil.
  assert (r ∈ rows_of i df) as Hin by (by apply list_elem_of_filter).
  rewrite Hnil in Hin. by apply elem_of_nil in Hin.
Qed.

Section grouped_lemmas.
Context `{Countable K} {V : Type}.
Implicit Types (key : Row → K) (null : K → bool) (agg : DataFrame → V).

Lemma lookup_grouped_dict key null agg (df : DataFrame) (k : K) :
  grouped_dict key null agg df !! k =
    if decide (null k = false ∧ k ∈ key <$> df)
    then Some (agg (filter (λ r, key r = k) df)) else None.
Proof.
  unfold grouped_dict, grouped. rewrite <- list_fmap_compose.
  case_decide as Hk.
  - apply elem_of_list_to_map_1.
    + rewrite <- list_fmap_compose. cbn.
      rewrite list_fmap_id. apply NoDup_unique.
    + apply list_elem_of_fmap. exists k. split; [done|].
      apply elem_of_unique, list_elem_of_filter. naive_solver.
  - apply not_elem_of_list_to_map_1.
    rewrite <- list_fmap_compose. cbn. rewrite list_fmap_id.
    rewrite elem_of_unique, list_elem_of_filter. naive_solver.
Qed.

Lemma getitem_grouped_dict key null agg (df : DataFrame) (r : Row) :
  r ∈ df → null (key r) = false →
  getitem (grouped_dict key null agg df) (key r)
    = Ok (agg (filter (λ r', key r' = key r) df)).
Proof.
  intros Hr Hnull. unfold getitem. rewrite lookup_grouped_dict.
  rewrite decide_True; [done|].
  split; [done|]. apply list_elem_of_fmap. by exists r.
Qed.
End grouped_lemmas.

Lemma filter_ext_elem_of {A} (P Q : A → Prop)
    `{!∀ x, Decision (P x), !∀ x, Decision (Q x)} (l : list A) :
  (∀ x, x ∈ l → P x ↔ Q x) → filter P l = filter Q l.
Proof.
  induction l as [|x l IH]; intros HPQ; [done|].
  rewrite !filter_cons.
  rewrite IH by (intros y Hy; apply HPQ; by right).
  destruct (decide (P x)) as [HP|HP], (decide (Q x)) as [HQ|HQ]; try done.
  - exfalso. apply HQ, HPQ; [left|done].
  - exfalso. apply HP, HPQ; [left|done].
Qed.

(** * The claims *)

(** ** Evaluations on the example tables *)

Lemma avg_nil : avg [] = 0%Q.
Proof. reflexivity. Qed.

(** C1. On [table_order] individual 2 appears first and individual 1
    second, so the identity column is [2; 1]; every metric column follows
    the sorted group keys [1; 2].  Row 0 of the assembled output therefore
    pairs individual 2 with the [community_stay] of individual 1 (which is
    1), although individual 2 alone has [community_stay] 2. *)
Theorem compute_individual_metrics_misaligned :
  ∃ m, compute_individual_metrics table_order = Ok m
     ∧ m_individual m = [2; 1]
     ∧ m_community_stay m = [1%Q; 2%Q]
     ∧ community_stay (rows_of 2 table_order) = [2%Q]
     ∧ community_stay (rows_of 1 table_order) = [1%Q].
Proof. eexists. repeat split; vm_compute; reflexivity. Qed.

(** C2. An individual without a complete observation makes
    [inquisitiveness] fail with a division by zero instead of yielding
    [0.0]. *)
Theorem inquisitiveness_zero_division :
  complete_rows 1 table_no_icolor = 0
  ∧ inquisitiveness table_no_icolor = Raise ZeroDivisionError.
Proof. split; vm_compute; reflexivity. Qed.

(** C4. An observation with a missing own colour makes [community_size]
    fail with the plain [KeyError] of the dict subscript. *)
Theorem community_size_key_error :
  community_size table_no_icolor = Raise KeyError.
Proof. vm_compute. reflexivity. Qed.

(** C5. With a missing group colour in the first of two observations,
    both with a group, [peer_synchrony] fails with [KeyError] where the
    stated formula gives 0.0 (the later subgroup is the individual
    alone).  On the two-step scenario the value of X is 1. *)
Theorem peer_synchrony_key_error :
  peer_synchrony table_late_gcolor (compute_subgroups table_late_gcolor)
    = Raise KeyError
  ∧ peer_synchrony_claimed table_late_gcolor = [0%Q]
  ∧ peer_synchrony table_scenario (compute_subgroups table_scenario)
    = Ok [1%Q; 1%Q; 0%Q].
Proof. repeat split; vm_compute; reflexivity. Qed.

(** C8. An individual without any own colour makes
    [individual_apparency] fail with [KeyError] instead of yielding
    [0.0]. *)
Theorem individual_apparency_key_error :
  individual_apparency table_no_icolor = Raise KeyError.
Proof. vm_compute. reflexivity. Qed.

(** ** Counterexamples to the stated formulas *)

(** C6. In [table_mixed_group] the row without own colour counts as a
    member that does not match. *)
Lemma group_homogeneity_claim_fails :
  group_homogeneity table_mixed_group = Ok [(1 # 2)%Q; 0%Q]
  ∧ group_homogeneity_claimed table_mixed_group = [1%Q; 0%Q]
  ∧ group_homogeneity table_mixed_group ≠ Ok (group_homogeneity_claimed table_mixed_group).
Proof. repeat split; vm_compute; congruence. Qed.

(** C7. In [table_mixed_group] the row without own colour is not counted
    in its group, and its individual gets a missing value. *)
Lemma group_size_claim_fails :
  group_size table_mixed_group = Ok [Some 1%Q; None]
  ∧ group_size_claimed table_mixed_group = [2%Q; 2%Q]
  ∧ group_size table_mixed_group ≠ Ok (Some <$> group_size_claimed table_mixed_group).
Proof. repeat split; vm_compute; congruence. Qed.

(** C9. In [table_gaps], [community_stay] delimits three runs and one
    colour is held, yet [cyclicity] is 0. *)
Lemma cyclicity_claim_fails :
  cyclicity table_gaps = [0]
  ∧ stay_runs (icolor <$> table_gaps) = [1; 1; 1]
  ∧ cyclicity_claimed table_gaps = [2]
  ∧ cyclicity table_gaps ≠ cyclicity_claimed table_gaps.
Proof. repeat split; vm_compute; congruence. Qed.

(** In [table_wide_colors] the shifted comparison sees one run where two
    colours are held, and [cyclicity] is negative. *)
Lemma cyclicity_wide_colors :
  cyclicity table_wide_colors = [-1]
  ∧ ¬ exact_colors table_wide_colors.
Proof.
  split; [vm_compute; reflexivity|].
  intros H. apply Forall_cons in H as [_ H]. apply Forall_cons in H as [H _].
  vm_compute in H. discriminate.
Qed.

(** In [table_wide_time] the rows are read in float64: the rounded time
    of the first row is no key of the dicts built from the time column. *)
Lemma wide_time_key_errors :
  ¬ plain table_wide_time
  ∧ group_homogeneity table_wide_time = Raise KeyError
  ∧ group_size table_wide_time = Raise KeyError
  ∧ absenteeism table_wide_time = Raise KeyError
  ∧ community_size table_wide_time = Raise KeyError.
Proof.
  split; [|repeat split; vm_compute; reflexivity].
  intros [H|H]; [vm_compute in H; discriminate|].
  apply Forall_cons in H as [H _]. vm_compute in H. discriminate.
Qed.

(** In [table_wide_individuals] the two large individuals are stored in
    the index as one, so each of them has no peer. *)
Lemma avg_num_peers_wide_individuals :
  individuals table_wide_individuals
    = [1; 9007199254740992; 9007199254740993]
  ∧ avg_num_peers table_wide_individuals
      (compute_subgroups table_wide_individuals) = Ok [0%Q; 0%Q; 0%Q].
Proof. split; vm_compute; reflexivity. Qed.

(** ** inquisitiveness *)

Lemma visit_test (gc ic : cell) :
  cell_ne gc ic && notna gc = bool_decide (is_Some gc ∧ gc ≠ ic).
Proof.
  symmetry. destruct gc as [x|], ic as [y|];
    cbn [cell_ne notna isnull negb andb].
  - destruct (Z.eqb_spec x y) as [->|Hne]; cbn [negb andb].
    + apply bool_decide_eq_false. naive_solver.
    + apply bool_decide_eq_true. split; [by eexists | congruence].
  - apply bool_decide_eq_true. split; [by eexists | congruence].
  - apply bool_decide_eq_false. intros [[? [=]] _].
  - apply bool_decide_eq_false. intros [[? [=]] _].
Qed.

Lemma visit_loop_count (rows : list Row) (n : Z) :
  visit_loop rows n
    = n + len (filter (λ r, is_Some (gcolor r) ∧ gcolor r ≠ icolor r) rows).
Proof.
  unfold len. revert n. induction rows as [|r rows IH]; intros n.
  - cbn. lia.
  - cbn [visit_loop]. rewrite visit_test, filter_cons.
    case_bool_decide; case_decide; try done; rewrite IH; cbn [length]; lia.
Qed.

Lemma truediv_nonzero (a b : Z) :
  b ≠ 0 → truediv (inject_Z a) (inject_Z b) = Ok (Qred (inject_Z a / inject_Z b)).
Proof.
  intros Hb. unfold truediv.
  destruct (Qeq_bool (inject_Z b) 0) eqn:E; [|done].
  apply Qeq_bool_eq in E. unfold Qeq in E. cbn in E. lia.
Qed.

Lemma truediv_zero (a : Z) : truediv (inject_Z a) (inject_Z 0) = Raise ZeroDivisionError.
Proof. reflexivity. Qed.

(** When the rows are read as stored and every individual has an
    observation without any missing field, [inquisitiveness] returns, for
    each individual in sorted order, the number of its observations whose
    group colour is present and differs from its own colour, divided by
    the number of its observations without any missing field. *)
Lemma inquisitiveness_values (df : DataFrame) :
  plain df →
  Forall (λ i, complete_rows i df ≠ 0) (individuals df) →
  inquisitiveness df
    = Ok ((λ i, Qred (inject_Z (visits i df) / inject_Z (complete_rows i df)))
            <$> individuals df).
Proof.
  intros Hp Hden. unfold inquisitiveness, groupby_individual.
  rewrite mapM_fmap. apply mapM_Ok_fmap.
  eapply Forall_impl; [exact Hden|]. intros i Hi. cbn.
  rewrite iterrows_rows_of by done.
  rewrite visit_loop_count, Z.add_0_l.
  by apply truediv_nonzero.
Qed.

(** C3.  On [table_gaps] the individual has one observation with an own
    colour, in a group of that colour, so the stated ratio is 0.  The
    code counts its two observations without own colour as visits and
    divides by the single observation without a missing field: it
    returns 2, a share above 100%, against its own comment ("% times an
    individual is present in groups other than those of his/her
    community"). *)
Theorem inquisitiveness_exceeds_one :
  inquisitiveness table_gaps = Ok [2%Q]
  ∧ inquisitiveness_claimed table_gaps = [0%Q].
Proof. split; vm_compute; reflexivity. Qed.

(** ** group_homogeneity *)

Lemma foldl_Qplus (a : Q) (l : list Q) : (foldl Qplus a l == a + sum l)%Q.
Proof.
  unfold sum. revert a. induction l as [|x l IH]; intros a; cbn.
  - ring.
  - rewrite (IH (a + x)%Q), (IH (0 + x)%Q). ring.
Qed.

Lemma sum_cons (x : Q) (l : list Q) : (sum (x :: l) == x + sum l)%Q.
Proof. unfold sum at 1. cbn. rewrite foldl_Qplus. ring. Qed.

Lemma inject_Z_len_cons {A} (x : A) (l : list A) :
  (inject_Z (len (x :: l)) == 1 + inject_Z (len l))%Q.
Proof.
  unfold len. cbn [length]. rewrite Nat2Z.inj_succ, <- Z.add_1_l.
  by rewrite inject_Z_plus.
Qed.

(** The sum of a 0/1 column is the number of its ones. *)
Lemma sum_indicator {A} (P : A → Prop) `{!∀ x, Decision (P x)}
    (f : A → Q) (l : list A) :
  Forall (λ x, f x = if decide (P x) then 1%Q else 0%Q) l →
  (sum (f <$> l) == inject_Z (len (filter P l)))%Q.
Proof.
  induction 1 as [|x l Hf _ IH]; [reflexivity|].
  rewrite fmap_cons, sum_cons, IH, Hf, filter_cons.
  case_decide.
  - rewrite inject_Z_len_cons. reflexivity.
  - ring.
Qed.

Lemma col_na_has_na (col : Row → cell) (df : DataFrame) :
  (∀ r, col r = None → complete r = false) →
  has_na df = false → col_na col df = false.
Proof.
  intros Hcol Hna. unfold has_na, col_na in *.
  apply bool_decide_eq_false. apply bool_decide_eq_false in Hna.
  intros Hex. apply Hna. eapply Exists_impl; [exact Hex|]. exact Hcol.
Qed.

(** When the rows are read as stored, the two colour columns compare as
    stored too. *)
Lemma homogeneity_plain (df : DataFrame) (r : Row) :
  plain df → r ∈ df →
  homogeneity df r = if cell_eq (gcolor r) (icolor r) then 1%Q else 0%Q.
Proof.
  intros [Hna|Hex] Hr; unfold homogeneity; cbv zeta.
  - rewrite !col_na_has_na; [done| |done| |done].
    + intros r' Hc. unfold complete. rewrite Hc. cbn. apply andb_false_r.
    + intros r' Hc. unfold complete. rewrite Hc. cbn.
      by rewrite andb_false_r.
  - rewrite Forall_forall in Hex. specialize (Hex r Hr).
    assert (fcast (gcolor r) = gcolor r) as -> by exact (f_equal gcolor Hex).
    assert (fcast (icolor r) = icolor r) as -> by exact (f_equal icolor Hex).
    by destruct (_ || _).
Qed.

Lemma homogeneity_decide (df : DataFrame) (r : Row) :
  plain df → r ∈ df →
  homogeneity df r
    = if decide (is_Some (gcolor r) ∧ gcolor r = icolor r) then 1%Q else 0%Q.
Proof.
  intros Hp Hr. rewrite homogeneity_plain by done.
  destruct (gcolor r) as [x|], (icolor r) as [y|]; cbn.
  - destruct (Z.eqb_spec x y) as [->|Hne].
    + rewrite decide_True; [done|]. split; [by eexists|done].
    + rewrite decide_False; [done|]. intros [_ [=]]. done.
  - rewrite decide_False; [done|]. intros [_ [=]].
  - rewrite decide_False; [done|]. intros [[? [=]] _].
  - rewrite decide_False; [done|]. intros [[? [=]] _].
Qed.

Lemma mean_homogeneity (df : DataFrame) (rows : list Row) :
  plain df → (∀ r, r ∈ rows → r ∈ df) →
  mean (homogeneity df <$> rows)
    = Qred (inject_Z (len (filter (λ r, is_Some (gcolor r) ∧ gcolor r = icolor r) rows))
            / inject_Z (len rows)).
Proof.
  intros Hp Hsub. unfold mean. apply Qred_complete.
  rewrite (sum_indicator (λ r, is_Some (gcolor r) ∧ gcolor r = icolor r)
             (homogeneity df) rows).
  - unfold len. by rewrite length_fmap.
  - apply Forall_forall. intros r Hr. apply homogeneity_decide; auto.
Qed.

Lemma elem_of_dropna_rows_of (df : DataFrame) (i : Z) (r : Row) :
  r ∈ dropna (rows_of i df) ↔ r ∈ df ∧ individual r = i ∧ complete r = true.
Proof.
  unfold dropna, rows_of. rewrite !list_elem_of_filter. naive_solver.
Qed.

Lemma complete_group (r : Row) : complete r = true → is_Some (group r).
Proof.
  unfold complete. destruct (group r); [by eexists|done].
Qed.

Lemma filter_time_group_notna (df : DataFrame) (r : Row) (g : Z) :
  group r = Some g →
  filter (λ r', time_group r' = time_group r)
         (filter (λ r', notna (group r') = true) df)
    = filter (λ r', time r' = time r ∧ group r' = group r) df.
Proof.
  intros Hg. rewrite list_filter_filter. apply list_filter_iff. intros r'.
  unfold time_group. rewrite Hg. split.
  - intros [[= Ht Hg'] _]. by rewrite Ht, Hg'.
  - intros [-> Hg']. split; [by rewrite Hg'|]. unfold notna. by rewrite Hg'.
Qed.

Lemma homogeneity_dict_complete (df : DataFrame) (r : Row) :
  plain df → r ∈ df → is_Some (group r) →
  getitem (homogeneity_dict df) (time r, group r)
    = Ok (homogeneous_fraction df (time r) (group r)).
Proof.
  intros Hp Hr [g Hg]. unfold homogeneity_dict.
  change (time r, group r) with (time_group r).
  rewrite getitem_grouped_dict.
  - rewrite mean_homogeneity; [|done|].
    + unfold homogeneous_fraction.
      by rewrite (filter_time_group_notna df r g Hg).
    + intros r' Hr'. apply list_elem_of_filter in Hr' as [_ Hr'].
      by apply list_elem_of_filter in Hr' as [_ Hr'].
  - apply list_elem_of_filter. split; [|done]. unfold notna. by rewrite Hg.
  - unfold null_snd, time_group. cbn. by rewrite Hg.
Qed.

(** The values of [group_homogeneity] on a table whose rows are read as
    stored. *)
Lemma group_homogeneity_values (df : DataFrame) :
  plain df →
  group_homogeneity df
    = Ok ((λ i, avg ((λ r, homogeneous_fraction df (time r) (group r))
                       <$> dropna (rows_of i df)))
            <$> individuals df).
Proof.
  intros Hp. unfold group_homogeneity, groupby_individual.
  rewrite mapM_fmap. apply mapM_Ok_fmap, Forall_forall. intros i _. cbn.
  rewrite iterrows_dropna_rows_of by done.
  rewrite (mapM_Ok_fmap _ (λ r, homogeneous_fraction df (time r) (group r))).
  - done.
  - apply Forall_forall. intros r Hr.
    apply elem_of_dropna_rows_of in Hr as (Hr & _ & Hc).
    apply homogeneity_dict_complete; [done|done|]. by apply complete_group.
Qed.

(** C6, amended.  On a table whose rows are read as stored (no missing
    value at all, or every value exactly representable in float64), the
    fraction of a (time, group) is taken among all its rows, a row with a
    missing colour counting as a member that does not match; each
    individual, in sorted order, gets the average of these fractions over
    its observations without any missing field ([0.0] when it has
    none). *)
Theorem group_homogeneity_amended (df : DataFrame) :
  plain df →
  group_homogeneity df
    = Ok ((λ i, avg ((λ r, homogeneous_fraction df (time r) (group r))
                       <$> dropna (rows_of i df)))
            <$> individuals df).
Proof. apply group_homogeneity_values. Qed.

Lemma group_homogeneity_amended_witness :
  plain table_mixed_group
  ∧ group_homogeneity table_mixed_group = Ok [(1 # 2)%Q; 0%Q].
Proof.
  assert (plain table_mixed_group) as H by (right; repeat constructor).
  split; [exact H|]. exact (group_homogeneity_amended table_mixed_group H).
Defined.

(** ** group_size *)

Lemma filter_fst_fmap {A B} `{EqDecision A} (f : Row → A) (g : Row → B)
    (a : A) (rows : list Row) :
  snd <$> filter (λ p, p.1 = a) ((λ r, (f r, g r)) <$> rows)
    = g <$> filter (λ r, f r = a) rows.
Proof.
  induction rows as [|r rows IH]; [done|].
  rewrite fmap_cons, !filter_cons. cbn [fst].
  case_decide; [rewrite !fmap_cons; cbn [snd]|]; by rewrite IH.
Qed.

Lemma omap_complete {B} (g : Row → B) (rows : list Row) :
  omap id ((λ r, if complete r then Some (g r) else None) <$> rows)
    = g <$> dropna rows.
Proof.
  unfold dropna. induction rows as [|r rows IH]; [done|].
  rewrite fmap_cons, filter_cons. cbn [omap list_omap id].
  destruct (complete r) eqn:E; cbn.
  - rewrite decide_True by done. rewrite fmap_cons. f_equal. apply IH.
  - rewrite decide_False by done. apply IH.
Qed.

Lemma group_size_dict_complete (df : DataFrame) (r : Row) :
  r ∈ df → complete r = true →
  getitem (grouped_dict time_group null_snd len (dropna df)) (time r, group r)
    = Ok (complete_members df (time r) (group r)).
Proof.
  intros Hr Hc. change (time r, group r) with (time_group r).
  rewrite getitem_grouped_dict.
  - unfold complete_members. do 2 f_equal. apply list_filter_iff. intros r'.
    unfold time_group. split; [by intros [= Ht Hg]|].
    intros [Ht Hg]. by rewrite Ht, Hg.
  - by apply list_elem_of_filter.
  - unfold null_snd, time_group. cbn.
    by destruct (complete_group r Hc) as [g ->].
Qed.

(** The value of every individual on a table with a complete row: the
    mean over the individual's complete rows, a missing value when it has
    none. *)
Lemma group_size_values (df : DataFrame) :
  plain df → dropna df ≠ [] →
  group_size df
    = Ok ((λ i, match dropna (rows_of i df) with
                | [] => None
                | rows => Some (mean ((λ r, inject_Z (complete_members df (time r) (group r)))
                                        <$> rows))
                end) <$> individuals df).
Proof.
  intros Hp Hne. unfold group_size. rewrite decide_False by done.
  rewrite (mapM_Ok_fmap _
    (λ x, (individual x,
           if complete x
           then Some (inject_Z (complete_members df (time x) (group x)))
           else None))).
  - cbn. f_equal. apply list_fmap_ext. intros _ i _.
    rewrite (filter_fst_fmap individual). fold (rows_of i df).
    unfold nanmean. rewrite omap_complete.
    by destruct (dropna (rows_of i df)).
  - apply Forall_forall. intros x Hx. destruct (complete x) eqn:Hc; [|done].
    cbv zeta. rewrite read_plain by done.
    by rewrite group_size_dict_complete.
Qed.

(** C7, amended.  On a table whose rows are read as stored (every value
    exactly representable in float64), for the [n]-th individual in
    sorted order, when it has an observation without any missing field,
    [group_size] returns at position [n] the mean, over exactly its
    observations without any missing field, of the number of rows of that
    (time, group) that have no missing field. *)
Theorem group_size_amended (df : DataFrame) (n : nat) (i : Z) :
  plain df →
  individuals df !! n = Some i →
  dropna (rows_of i df) ≠ [] →
  ∃ vs, group_size df = Ok vs
      ∧ vs !! n
          = Some (Some (mean ((λ r, inject_Z (complete_members df (time r) (group r)))
                                <$> dropna (rows_of i df)))).
Proof.
  intros Hp Hn Hrows. eexists. split.
  - apply group_size_values; [done|]. intros Hnil.
    destruct (dropna (rows_of i df)) as [|r rows] eqn:E; [done|].
    assert (r ∈ dropna (rows_of i df)) as Hr by (rewrite E; left).
    apply elem_of_dropna_rows_of in Hr as (Hr & _ & Hc).
    assert (r ∈ dropna df) as Hin by (by apply list_elem_of_filter).
    rewrite Hnil in Hin. by apply elem_of_nil in Hin.
  - rewrite list_lookup_fmap, Hn. cbn.
    by destruct (dropna (rows_of i df)).
Qed.

Lemma group_size_amended_witness :
  plain table_mixed_group
  ∧ individuals table_mixed_group !! 0%nat = Some 1
  ∧ dropna (rows_of 1 table_mixed_group) ≠ []
  ∧ ∃ vs, group_size table_mixed_group = Ok vs ∧ vs !! 0%nat = Some (Some 1%Q).
Proof.
  assert (plain table_mixed_group) as H0 by (right; repeat constructor).
  assert (individuals table_mixed_group !! 0%nat = Some 1) as H1
    by reflexivity.
  assert (dropna (rows_of 1 table_mixed_group) ≠ []) as H2
    by (vm_compute; discriminate).
  split; [exact H0|]. split; [exact H1|]. split; [exact H2|].
  exact (group_size_amended table_mixed_group 0 1 H0 H1 H2).
Defined.

(** ** cyclicity *)

Lemma zip_shift (colors : list cell) :
  zip (shift colors) colors = zip (None :: colors) colors.
Proof.
  destruct colors as [|c0 rest]; [done|].
  unfold shift. generalize (@None Z), c0. clear c0.
  induction rest as [|c rest IH]; intros p c0; [done|].
  change (removelast (c0 :: c :: rest)) with (c0 :: removelast (c :: rest)).
  cbn [zip zip_with]. f_equal. apply IH.
Qed.

Lemma run_starts_nil prev : run_starts prev [] = 0.
Proof. reflexivity. Qed.

Lemma run_starts_cons prev c rest :
  run_starts prev (c :: rest)
    = (if cell_ne prev c && notna c then 1 else 0) + run_starts c rest.
Proof.
  unfold run_starts, count, len. cbn [zip zip_with].
  rewrite filter_cons. cbn [fst snd].
  destruct (cell_ne prev c) eqn:E.
  - rewrite decide_True by done. rewrite fmap_cons. cbn [snd omap list_omap].
    destruct c as [x|]; cbn [id notna isnull negb andb length]; lia.
  - rewrite decide_False by done. cbn [andb]. lia.
Qed.

Lemma color_runs_cons_nonempty c rest : color_runs (Some c :: rest) ≠ [].
Proof.
  cbn. repeat case_match; discriminate.
Qed.

Lemma len_color_runs_cons c rest :
  len (color_runs (Some c :: rest))
    = (if continues (Some c) rest then 0 else 1) + len (color_runs rest).
Proof.
  unfold len. cbn [color_runs continues].
  destruct rest as [|[c'|] rest']; cbn [head length]; [lia| |lia].
  destruct (color_runs (Some c' :: rest')) as [|run runs] eqn:E.
  { by apply color_runs_cons_nonempty in E. }
  destruct (Z.eqb_spec c c') as [->|Hne].
  - rewrite decide_True by done. cbn [length]. lia.
  - rewrite decide_False by done. cbn [length]. lia.
Qed.

Lemma run_starts_color_runs prev colors :
  run_starts prev colors + (if continues prev colors then 1 else 0)
    = len (color_runs colors).
Proof.
  revert prev. induction colors as [|c rest IH]; intros prev.
  - rewrite run_starts_nil. by destruct prev.
  - rewrite run_starts_cons. specialize (IH c). destruct c as [x|].
    + rewrite len_color_runs_cons, <- IH.
      destruct (continues (Some x) rest); destruct prev as [y|].
      all: try change (continues (Some y) (Some x :: rest)) with (y =? x).
      all: cbn [cell_ne continues notna isnull negb andb].
      all: try destruct (y =? x); cbn [negb andb]; lia.
    + cbn [color_runs]. rewrite <- IH.
      destruct prev as [y|]; cbn; lia.
Qed.

Lemma consecutive_uniques_exact (colors : list cell) :
  Forall (λ c, fcast c = c) colors →
  consecutive_uniques colors
    = snd <$> filter (λ p, cell_ne p.1 p.2 = true)
                     (zip (shift colors) colors).
Proof.
  intros Hc. unfold consecutive_uniques. f_equal.
  apply filter_ext_elem_of. intros [a b] Hab. cbn [fst snd].
  rewrite Forall_forall in Hc.
  assert (fcast b = b) as ->.
  { apply Hc. apply elem_of_zip_r in Hab. exact Hab. }
  assert (fcast a = a) as ->; [|done].
  rewrite zip_shift in Hab. apply elem_of_zip_l in Hab.
  apply elem_of_cons in Hab as [->|Hab]; [done|by apply Hc].
Qed.

Lemma count_consecutive_uniques (colors : list cell) :
  Forall (λ c, fcast c = c) colors →
  count (consecutive_uniques colors) = len (color_runs colors).
Proof.
  intros Hc. rewrite consecutive_uniques_exact by done. rewrite zip_shift.
  pose proof (run_starts_color_runs None colors) as H.
  unfold run_starts in H. change (continues None colors) with false in H.
  cbv iota in H. rewrite Z.add_0_r in H. exact H.
Qed.

Lemma exact_colors_rows_of (df : DataFrame) (i : Z) :
  exact_colors df → Forall (λ c, fcast c = c) (icolor <$> rows_of i df).
Proof.
  unfold exact_colors. rewrite !Forall_forall. intros Hdf c Hc.
  apply list_elem_of_fmap in Hc as (r & -> & Hr).
  apply Hdf. by apply rows_of_subseteq in Hr.
Qed.

Lemma list_to_set_unique (l : list Z) :
  list_to_set (unique l) =@{gset Z} list_to_set l.
Proof.
  apply set_eq. intros x. by rewrite !elem_of_list_to_set, elem_of_unique.
Qed.

Lemma length_unique_le (l : list Z) : (length (unique l) ≤ length l)%nat.
Proof.
  induction l as [|x l IH]; [done|]. cbn.
  pose proof (length_filter (λ y, y ≠ x) (unique l)). lia.
Qed.

Lemma nunique_color_set (colors : list cell) :
  nunique colors = Z.of_nat (size (color_set colors)).
Proof.
  unfold nunique, color_set, len.
  rewrite <- list_to_set_unique, size_list_to_set; [done|apply NoDup_unique].
Qed.

Lemma size_list_to_set_le (l : list Z) :
  (size (list_to_set l : gset Z) ≤ length l)%nat.
Proof.
  rewrite <- list_to_set_unique, size_list_to_set by apply NoDup_unique.
  apply length_unique_le.
Qed.

Lemma color_runs_cons_head c rest :
  ∃ run runs, color_runs (Some c :: rest) = (c :: run) :: runs.
Proof. cbn. repeat case_match; eauto. Qed.

(** Every colour of the sequence is the colour of some run. *)
Lemma color_run_heads (colors : list cell) (x : Z) :
  x ∈ omap id colors → x ∈ omap head (color_runs colors).
Proof.
  induction colors as [|[c|] rest IH]; [done| |done].
  cbn [omap list_omap id]. rewrite elem_of_cons. intros Hx.
  destruct (color_runs_cons_head c rest) as (run & runs & E).
  rewrite E. cbn [omap list_omap head]. rewrite elem_of_cons.
  destruct Hx as [->|Hx]; [by left|]. specialize (IH Hx).
  cbn [color_runs] in E.
  destruct rest as [|[c'|] rest']; cbn [head] in E.
  - by apply elem_of_nil in Hx.
  - destruct (color_runs_cons_head c' rest') as (run' & runs' & E').
    rewrite E' in E, IH. cbn [omap list_omap head] in IH.
    apply elem_of_cons in IH.
    destruct (decide (c = c')) as [->|Hne]; injection E as <- <-.
    + done.
    + right. cbn [omap list_omap head]. by apply elem_of_cons.
  - injection E as <- <-. by right.
Qed.

Lemma length_omap_le {A B} (f : A → option B) (l : list A) :
  (length (omap f l) ≤ length l)%nat.
Proof.
  induction l as [|x l IH]; [done|]. cbn. destruct (f x); cbn; lia.
Qed.

Lemma color_set_le_runs (colors : list cell) :
  Z.of_nat (size (color_set colors)) ≤ len (color_runs colors).
Proof.
  unfold len.
  assert (color_set colors ⊆ list_to_set (omap head (color_runs colors))) as Hsub.
  { intros x. unfold color_set. rewrite !elem_of_list_to_set.
    apply color_run_heads. }
  apply subseteq_size in Hsub.
  pose proof (size_list_to_set_le (omap head (color_runs colors))).
  pose proof (length_omap_le head (color_runs colors)). lia.
Qed.

Lemma color_runs_replicate_None (n : nat) : color_runs (replicate n None) = [].
Proof. induction n as [|n IH]; [done|]. exact IH. Qed.

Lemma color_runs_replicate_Some (n : nat) (v : Z) :
  color_runs (replicate (S n) (Some v)) = [replicate (S n) v].
Proof.
  induction n as [|n IH]; [done|].
  change (replicate (S (S n)) (Some v)) with (Some v :: replicate (S n) (Some v)).
  cbn [color_runs]. rewrite IH. cbn [replicate head].
  by rewrite decide_True.
Qed.

Lemma color_set_replicate_None (n : nat) : color_set (replicate n None) = ∅.
Proof.
  unfold color_set. induction n as [|n IH]; [done|]. exact IH.
Qed.

Lemma color_set_replicate_Some (n : nat) (v : Z) :
  color_set (replicate (S n) (Some v)) = {[ v ]}.
Proof.
  unfold color_set. apply set_eq. intros x.
  rewrite elem_of_list_to_set, list_elem_of_omap, elem_of_singleton. split.
  - intros (o & Ho & Hox). apply elem_of_replicate_inv in Ho. subst o.
    by injection Hox.
  - intros ->. exists (Some v). split; [|done]. apply elem_of_replicate. done.
Qed.

Lemma fmap_constant {A B} (f : A → B) (b : B) (l : list A) :
  Forall (λ x, f x = b) l → f <$> l = replicate (length l) b.
Proof. induction 1 as [|x l Hx _ IH]; [done|]. cbn. by rewrite Hx, IH. Qed.

(** The value [cyclicity] computes for one colour sequence. *)
Lemma cyclicity_value (colors : list cell) :
  Forall (λ c, fcast c = c) colors →
  count (consecutive_uniques colors) - nunique colors
    = len (color_runs colors) - Z.of_nat (size (color_set colors)).
Proof.
  intros Hc. by rewrite count_consecutive_uniques, nunique_color_set.
Qed.

Lemma cyclicity_constant (colors : list cell) (c : cell) :
  Forall (λ x, x = c) colors →
  len (color_runs colors) - Z.of_nat (size (color_set colors)) = 0.
Proof.
  intros Hc. apply (fmap_constant id) in Hc. rewrite list_fmap_id in Hc.
  rewrite Hc. destruct c as [v|].
  - destruct (length colors) as [|n]; [done|].
    rewrite color_runs_replicate_Some, color_set_replicate_Some, size_singleton.
    done.
  - by rewrite color_runs_replicate_None, color_set_replicate_None.
Qed.

(** C9, amended.  On a table whose colours are exact, for each
    individual, in sorted order, [cyclicity] is the number of maximal runs
    of equal colours in its colour sequence, where a missing entry ends a
    run and is not counted as one, minus the number of distinct colours it
    has held; the value is never negative; and it is 0 for an individual
    whose colour is the same (or missing) in all its observations. *)
Theorem cyclicity_amended (df : DataFrame) :
  exact_colors df →
  cyclicity df
    = (λ i, let colors := icolor <$> rows_of i df in
            len (color_runs colors) - Z.of_nat (size (color_set colors)))
      <$> individuals df
  ∧ Forall (λ v, 0 ≤ v) (cyclicity df)
  ∧ ∀ (n : nat) (i : Z) (c : cell),
      individuals df !! n = Some i →
      Forall (λ r, icolor r = c) (rows_of i df) →
      cyclicity df !! n = Some 0.
Proof.
  intros Hex.
  assert (cyclicity df
    = (λ i, let colors := icolor <$> rows_of i df in
            len (color_runs colors) - Z.of_nat (size (color_set colors)))
      <$> individuals df) as Heq.
  { unfold cyclicity, groupby_individual. rewrite <- list_fmap_compose.
    apply list_fmap_ext. intros _ i _. cbn. apply cyclicity_value.
    by apply exact_colors_rows_of. }
  split; [exact Heq|]. rewrite Heq. split.
  - apply Forall_fmap, Forall_forall. intros i _. cbn.
    pose proof (color_set_le_runs (icolor <$> rows_of i df)). lia.
  - intros n i c Hn Hc. rewrite list_lookup_fmap, Hn. cbn. f_equal.
    apply (cyclicity_constant _ c). by apply Forall_fmap.
Qed.

Lemma cyclicity_amended_witness :
  exact_colors table_order
  ∧ individuals table_order !! 1%nat = Some 2
  ∧ Forall (λ r, icolor r = Some 5) (rows_of 2 table_order)
  ∧ cyclicity table_order !! 1%nat = Some 0.
Proof.
  assert (exact_colors table_order) as H0 by (repeat constructor).
  assert (individuals table_order !! 1%nat = Some 2) as H1 by reflexivity.
  assert (Forall (λ r, icolor r = Some 5) (rows_of 2 table_order)) as H2
    by (repeat constructor).
  split; [exact H0|]. split; [exact H1|]. split; [exact H2|].
  exact (proj2 (proj2 (cyclicity_amended table_order H0)) 1%nat 2 (Some 5)
           H1 H2).
Defined.

(** ** The subgroup index *)

Lemma lookup_add_row (m : gmap (Z * cell * cell) (gset Z)) (r : Row)
    (k : Z * cell * cell) :
  add_row m r !! k
    = if decide (subgroup_key r = k)
      then Some (default ∅ (m !! k) ∪ {[individual r]})
      else m !! k.
Proof.
  unfold add_row. fold (subgroup_key r).
  destruct (m !! subgroup_key r) as [members|] eqn:E; case_decide as Hk.
  - subst k. by rewrite lookup_insert_eq, E.
  - by rewrite lookup_insert_ne.
  - subst k. rewrite lookup_insert_eq, E. cbn. f_equal. set_solver.
  - by rewrite lookup_insert_ne.
Qed.

Lemma lookup_foldl_add_row (rows : list Row)
    (m : gmap (Z * cell * cell) (gset Z)) (k : Z * cell * cell) :
  foldl add_row m rows !! k
    = if decide (k ∈ subgroup_key <$> rows)
      then Some (default ∅ (m !! k)
                 ∪ list_to_set (individual <$> filter (λ r, subgroup_key r = k) rows))
      else m !! k.
Proof.
  revert m. induction rows as [|r rows IH]; intros m.
  - cbn. rewrite decide_False; [done|]. apply not_elem_of_nil.
  - cbn [foldl]. rewrite IH, lookup_add_row, fmap_cons, filter_cons.
    destruct (decide (subgroup_key r = k)) as [Hk|Hk].
    + rewrite (decide_True (P := k ∈ _ :: _)) by (rewrite Hk; left).
      cbn [default]. case_decide as Hin; f_equal.
      * rewrite fmap_cons, list_to_set_cons. set_solver.
      * rewrite fmap_cons, list_to_set_cons.
        assert (list_to_set (individual <$> filter (λ r, subgroup_key r = k) rows)
                  =@{gset Z} ∅) as ->; [|set_solver].
        apply set_eq. intros x.
        rewrite elem_of_list_to_set, list_elem_of_fmap. split; [|set_solver].
        intros (r' & _ & Hr'). apply list_elem_of_filter in Hr' as [Hk' Hr'].
        exfalso. apply Hin, list_elem_of_fmap. by exists r'.
    + case_decide as Hin.
      * rewrite decide_True; [done|]. by right.
      * rewrite decide_False; [done|].
        rewrite elem_of_cons. intros [->|?]; done.
Qed.

(** The index holds, for the key of every complete row as the loop reads
    it, the individuals of the complete rows read with that key, and
    nothing else. *)
Lemma lookup_compute_subgroups (df : DataFrame) (k : Z * cell * cell) :
  compute_subgroups df !! k
    = if decide (k ∈ subgroup_key <$> iterrows df (dropna df))
      then Some (subgroup df k) else None.
Proof.
  unfold compute_subgroups. rewrite lookup_foldl_add_row, lookup_empty.
  case_decide; [|done]. cbn. unfold subgroup. f_equal. set_solver.
Qed.

(** The row of a complete observation, as the loops read it, is a key of
    the index, and its individual is in the entry. *)
Lemma getitem_compute_subgroups_read (df : DataFrame) (r : Row) :
  r ∈ df → complete r = true →
  getitem (compute_subgroups df) (subgroup_key (read df r))
    = Ok (subgroup df (subgroup_key (read df r))).
Proof.
  intros Hr Hc. unfold getitem. rewrite lookup_compute_subgroups.
  rewrite decide_True; [done|].
  apply list_elem_of_fmap. exists (read df r). split; [done|].
  apply list_elem_of_fmap. exists r. split; [done|].
  by apply list_elem_of_filter.
Qed.

Lemma elem_of_subgroup_read (df : DataFrame) (r : Row) :
  r ∈ df → complete r = true →
  individual (read df r) ∈ subgroup df (subgroup_key (read df r)).
Proof.
  intros Hr Hc. unfold subgroup. apply elem_of_list_to_set, list_elem_of_fmap.
  exists (read df r). split; [done|]. apply list_elem_of_filter.
  split; [done|]. apply list_elem_of_fmap. exists r. split; [done|].
  by apply list_elem_of_filter.
Qed.

(** C10.  Every member of every entry of the subgroup index comes from a
    row without any missing field, as the loop reads that row.  As [peer_synchrony] only tests the
    groups of a pair, it fails with [KeyError] on [table_late_icolor]
    (both observations have a group, the first misses its own colour) and
    on [table_late_gcolor] (both have a group and an own colour, the first
    misses its group colour and is therefore not in the index). *)
Theorem subgroup_index_key_error :
  (∀ (df : DataFrame) (k : Z * cell * cell) (members : gset Z) (i : Z),
      compute_subgroups df !! k = Some members → i ∈ members →
      ∃ r, r ∈ df ∧ complete r = true
           ∧ subgroup_key (read df r) = k ∧ individual (read df r) = i)
  ∧ (Forall (λ r, individual r = 1 ∧ is_Some (group r)) table_late_icolor
     ∧ Exists (λ r, icolor r = None) table_late_icolor
     ∧ peer_synchrony table_late_icolor (compute_subgroups table_late_icolor)
         = Raise KeyError)
  ∧ (Forall (λ r, individual r = 1 ∧ is_Some (group r) ∧ is_Some (icolor r))
       table_late_gcolor
     ∧ Exists (λ r, gcolor r = None) table_late_gcolor
     ∧ peer_synchrony table_late_gcolor (compute_subgroups table_late_gcolor)
         = Raise KeyError).
Proof.
  split; [|split].
  - intros df k members i Hk Hi. rewrite lookup_compute_subgroups in Hk.
    case_decide; [|done]. injection Hk as <-.
    unfold subgroup in Hi.
    apply elem_of_list_to_set, list_elem_of_fmap in Hi as (r' & -> & Hr).
    apply list_elem_of_filter in Hr as [Hkey Hr].
    apply list_elem_of_fmap in Hr as (r & -> & Hr).
    apply list_elem_of_filter in Hr as [Hc Hr]. by exists r.
  - split; [|split].
    + repeat constructor; by eexists.
    + by left.
    + vm_compute. reflexivity.
  - split; [|split].
    + repeat constructor; by eexists.
    + by left.
    + vm_compute. reflexivity.
Qed.

Lemma subgroup_index_key_error_witness :
  ∃ r, r ∈ table_scenario ∧ complete r = true
     ∧ subgroup_key (read table_scenario r) = (1, Some 10, Some 7)
     ∧ individual (read table_scenario r) = 2.
Proof.
  apply (proj1 subgroup_index_key_error table_scenario (1, Some 10, Some 7)
           (subgroup table_scenario (1, Some 10, Some 7)) 2).
  - vm_compute. reflexivity.
  - apply (bool_decide_unpack _). vm_compute. exact I.
Defined.

(** ** Shape and order of the columns *)

Lemma Sorted_individuals (df : DataFrame) : Sorted Z.le (individuals df).
Proof. apply (Sorted_merge_sort Z.le). Qed.

Lemma individuals_Permutation (df : DataFrame) :
  individuals df ≡ₚ unique (individual <$> df).
Proof. apply merge_sort_Permutation. Qed.

(** The groups come in the order of the identity column exactly when the
    individuals first appear in increasing order. *)
Lemma individuals_first_appearance (df : DataFrame) :
  individuals df = unique (individual <$> df)
  ↔ Sorted Z.le (unique (individual <$> df)).
Proof.
  split.
  - intros <-. apply Sorted_individuals.
  - intros Hs. apply (Sorted_unique Z.le); [apply Sorted_individuals|done|].
    apply individuals_Permutation.
Qed.

Lemma length_groupby_individual (df : DataFrame) :
  length (groupby_individual df) = length (unique (individual <$> df)).
Proof.
  unfold groupby_individual. by rewrite length_fmap, length_individuals.
Qed.

Lemma mapM_groupby_length {B} (f : Z * list Row → result B)
    (df : DataFrame) (vs : list B) :
  mapM f (groupby_individual df) = Ok vs →
  length vs = length (unique (individual <$> df)).
Proof.
  intros H. apply mapM_Ok_length in H. by rewrite H, length_groupby_individual.
Qed.

(** Every metric that returns has one entry per distinct individual. *)
Lemma metric_lengths (df : DataFrame) :
  let n := length (unique (individual <$> df)) in
  (∀ vs, absenteeism df = Ok vs → length vs = n)
  ∧ (∀ vs, inquisitiveness df = Ok vs → length vs = n)
  ∧ length (community_stay df) = n
  ∧ (∀ vs, avg_num_peers df (compute_subgroups df) = Ok vs → length vs = n)
  ∧ (∀ vs, peer_synchrony df (compute_subgroups df) = Ok vs → length vs = n)
  ∧ (∀ vs, group_size df = Ok vs → length vs = n)
  ∧ (∀ vs, group_homogeneity df = Ok vs → length vs = n)
  ∧ (∀ vs, individual_apparency df = Ok vs → length vs = n)
  ∧ length (cyclicity df) = n
  ∧ (∀ vs, community_size df = Ok vs → length vs = n).
Proof.
  cbn. repeat split; try (intros vs; apply mapM_groupby_length).
  - unfold community_stay. by rewrite length_fmap, length_groupby_individual.
  - intros vs. unfold group_size. case_decide; [done|].
    destruct (mapM _ df) as [col|]; cbn; [|done].
    intros [= <-]. by rewrite length_fmap, length_individuals.
  - intros vs. unfold individual_apparency.
    destruct (community_apparency df) as [ca|]; cbn; [|done].
    apply mapM_groupby_length.
  - unfold cyclicity. by rewrite length_fmap, length_groupby_individual.
Qed.

(** The columns of the assembled output are the results of the metrics. *)
Lemma compute_individual_metrics_columns (df : DataFrame) (m : Metrics) :
  compute_individual_metrics df = Ok m →
  m_individual m = unique (individual <$> df)
  ∧ absenteeism df = Ok (m_absenteeism m)
  ∧ inquisitiveness df = Ok (m_inquisitiveness m)
  ∧ community_stay df = m_community_stay m
  ∧ avg_num_peers df (compute_subgroups df) = Ok (m_avg_num_peers m)
  ∧ peer_synchrony df (compute_subgroups df) = Ok (m_peer_synchrony m)
  ∧ group_size df = Ok (m_group_size m)
  ∧ group_homogeneity df = Ok (m_group_homogeneity m)
  ∧ individual_apparency df = Ok (m_individual_apparency m)
  ∧ cyclicity df = m_cyclicity m
  ∧ community_size df = Ok (m_community_size m).
Proof.
  unfold compute_individual_metrics.
  destruct (absenteeism df) as [c1|]; cbn; [|done].
  destruct (inquisitiveness df) as [c2|]; cbn; [|done].
  destruct (avg_num_peers df _) as [c4|]; cbn; [|done].
  destruct (peer_synchrony df _) as [c5|]; cbn; [|done].
  destruct (group_size df) as [c6|]; cbn; [|done].
  destruct (group_homogeneity df) as [c7|]; cbn; [|done].
  destruct (individual_apparency df) as [c8|]; cbn; [|done].
  destruct (community_size df) as [c10|]; cbn; [|done].
  case_bool_decide; [|done]. intros [= <-]. cbn. done.
Qed.

(** When the ten metrics return, so does the assembler: its final length
    check never fails. *)
Lemma compute_individual_metrics_returns (df : DataFrame) c1 c2 c4 c5 c6 c7 c8 c10 :
  absenteeism df = Ok c1 →
  inquisitiveness df = Ok c2 →
  avg_num_peers df (compute_subgroups df) = Ok c4 →
  peer_synchrony df (compute_subgroups df) = Ok c5 →
  group_size df = Ok c6 →
  group_homogeneity df = Ok c7 →
  individual_apparency df = Ok c8 →
  community_size df = Ok c10 →
  compute_individual_metrics df
    = Ok (mkMetrics (unique (individual <$> df)) c1 c2 (community_stay df)
            c4 c5 c6 c7 c8 (cyclicity df) c10).
Proof.
  intros H1 H2 H4 H5 H6 H7 H8 H10.
  destruct (metric_lengths df)
    as (L1 & L2 & L3 & L4 & L5 & L6 & L7 & L8 & L9 & L10).
  unfold compute_individual_metrics.
  rewrite H1, H2, H4, H5, H6, H7, H8, H10. cbn.
  rewrite bool_decide_eq_true_2; [done|].
  repeat constructor; auto.
Qed.

(** ** When the unguarded metrics raise *)

Lemma truediv_raises (a b : Q) (e : exn) :
  truediv a b = Raise e → e = ZeroDivisionError.
Proof. unfold truediv. destruct (Qeq_bool b 0); [by intros [= <-]|done]. Qed.

Lemma getitem_raises `{Countable K} {V} (d : gmap K V) (k : K) (e : exn) :
  getitem d k = Raise e → e = KeyError.
Proof. unfold getitem. destruct (d !! k); [done|by intros [= <-]]. Qed.

(** [inquisitiveness] raises on every table in which some individual has
    no observation without a missing field. *)
Lemma inquisitiveness_raises (df : DataFrame) (i : Z) :
  i ∈ individuals df → complete_rows i df = 0 →
  inquisitiveness df = Raise ZeroDivisionError.
Proof.
  intros Hi Hz. unfold inquisitiveness, groupby_individual. rewrite mapM_fmap.
  apply (mapM_Raise_uniform _ _ i); [|done|].
  - intros x e'. cbn. apply truediv_raises.
  - cbn. fold (complete_rows i df). rewrite Hz. apply truediv_zero.
Qed.

Lemma rows_of_individual (df : DataFrame) (r : Row) :
  r ∈ df → individual r ∈ individuals df ∧ r ∈ rows_of (individual r) df.
Proof.
  intros Hr. split.
  - apply elem_of_individuals. by exists r.
  - by apply list_elem_of_filter.
Qed.

(** [community_size] raises on every table that has an observation
    without own colour. *)
Lemma community_size_raises (df : DataFrame) (r : Row) :
  r ∈ df → icolor r = None → community_size df = Raise KeyError.
Proof.
  intros Hr Hc. destruct (rows_of_individual df r Hr) as [Hi Hrows].
  assert (∀ (d : gmap (Z * cell) Z) (row : Row) e',
            inject_Z <$> getitem d (time row, icolor row) = Raise e' →
            e' = KeyError) as Hget.
  { intros d row e'. destruct (getitem d _) as [v|e0] eqn:E; cbn; [done|].
    intros [= <-]. by apply getitem_raises in E. }
  unfold community_size, groupby_individual. rewrite mapM_fmap.
  apply (mapM_Raise_uniform _ _ (individual r)); [|done|].
  - intros i e'. cbn.
    destruct (mapM _ (iterrows df (rows_of i df))) as [xs|e0] eqn:E; cbn;
      [done|].
    intros [= <-]. eapply mapM_Raise_only; [|exact E].
    intros row e''. apply Hget.
  - cbn.
    rewrite (mapM_Raise_uniform _ _ (read df r) KeyError); [done| | |].
    + intros row e''. apply Hget.
    + unfold iterrows. apply list_elem_of_fmap. by exists r.
    + pose proof (isnull_icolor_read df r) as Hn. rewrite Hc in Hn.
      destruct (icolor (read df r)) as [c|] eqn:Ec; [done|]. cbv zeta.
      unfold getitem. rewrite lookup_grouped_dict.
      rewrite decide_False; [done|]. by intros [[=] _].
Qed.

(** Without a missing own colour, on a table whose rows are read as
    stored, [community_size] averages, over all observations of the
    individual, the number of rows of the table with the same time and own
    colour. *)
Lemma community_size_no_missing (df : DataFrame) :
  plain df → Forall (λ r, is_Some (icolor r)) df →
  community_size df
    = Ok ((λ i, avg ((λ r, inject_Z (len (filter (λ r', time_icolor r' = time_icolor r) df)))
                       <$> rows_of i df))
            <$> individuals df).
Proof.
  intros Hp Hall. unfold community_size, groupby_individual.
  rewrite mapM_fmap. apply mapM_Ok_fmap, Forall_forall. intros i _. cbn.
  rewrite iterrows_rows_of by done.
  rewrite (mapM_Ok_fmap _
    (λ r, inject_Z (len (filter (λ r', time_icolor r' = time_icolor r) df)))).
  - done.
  - apply Forall_forall. intros r Hr.
    apply list_elem_of_filter in Hr as [_ Hr].
    change (time r, icolor r) with (time_icolor r).
    rewrite getitem_grouped_dict; [done|done|].
    rewrite Forall_forall in Hall. destruct (Hall r Hr) as [c Hc].
    unfold null_snd, time_icolor. cbn. by rewrite Hc.
Qed.

(** ** peer_synchrony *)

Lemma pairs_from_zip {A} (prev : A) (it : list A) :
  pairs_from prev it = zip (prev :: it) it.
Proof.
  revert prev. induction it as [|curr it IH]; intros prev; [done|].
  cbn. f_equal. apply IH.
Qed.

Lemma elem_of_pairs_from {A} (prev : A) (it : list A) (p : A * A) :
  p ∈ pairs_from prev it → p.1 ∈ prev :: it ∧ p.2 ∈ it.
Proof.
  revert prev. induction it as [|curr it IH]; intros prev; cbn.
  - intros H. by apply elem_of_nil in H.
  - rewrite elem_of_cons. intros [->|H]; cbn.
    + split; [left|left].
    + destruct (IH _ H) as [H1 H2]. split; by right.
Qed.

Lemma subgroup_guarded (df : DataFrame) (r : Row) :
  plain df → guarded df → is_Some (group r) →
  subgroup df (subgroup_key r) = subgroup_claimed df (subgroup_key r).
Proof.
  intros Hp Hg [g Hr]. unfold subgroup, subgroup_claimed.
  rewrite iterrows_dropna by done. unfold dropna.
  rewrite !list_filter_filter. do 2 f_equal.
  apply filter_ext_elem_of. intros r' Hr'.
  unfold guarded in Hg. rewrite Forall_forall in Hg. specialize (Hg r' Hr').
  unfold subgroup_key. split.
  - intros [Hk Hc]. split; [done|]. unfold complete in Hc.
    apply andb_true_iff in Hc as [Hc Hi]. apply andb_true_iff in Hc as [Hc _].
    by destruct (group r'), (icolor r').
  - intros [Hk [Hgr _]]. split; [done|]. by apply Hg.
Qed.

Lemma getitem_compute_subgroups (df : DataFrame) (r : Row) :
  plain df → r ∈ df → complete r = true →
  getitem (compute_subgroups df) (subgroup_key r) = Ok (subgroup df (subgroup_key r)).
Proof.
  intros Hp Hr Hc. rewrite <- (read_plain df r) by done.
  by apply getitem_compute_subgroups_read.
Qed.

Lemma truediv_pred (a : Q) (n : Z) :
  n ≠ 1 →
  truediv a (inject_Z n - 1) = Ok (Qred (a / (inject_Z n - 1))).
Proof.
  intros Hn. unfold truediv.
  destruct (Qeq_bool (inject_Z n - 1) 0) eqn:E; [|done].
  apply Qeq_bool_eq in E. unfold Qeq in E. cbn in E. lia.
Qed.

Lemma synchrony_step_guarded (df : DataFrame) (prev curr : Row) :
  plain df → guarded df → prev ∈ df → curr ∈ df →
  synchrony_step (compute_subgroups df) prev curr
    = Ok (synchrony_claimed df (prev, curr)).
Proof.
  intros Hpl Hg Hp Hc. unfold synchrony_step, synchrony_claimed.
  destruct (isnull (group prev) || isnull (group curr)) eqn:E; [done|].
  apply orb_false_elim in E as [E1 E2].
  assert (is_Some (group prev)) as Hgp by (destruct (group prev); [by eexists|done]).
  assert (is_Some (group curr)) as Hgc by (destruct (group curr); [by eexists|done]).
  pose proof Hg as Hall. unfold guarded in Hall. rewrite Forall_forall in Hall.
  change (time prev, group prev, icolor prev) with (subgroup_key prev).
  change (time curr, group curr, icolor curr) with (subgroup_key curr).
  rewrite !getitem_compute_subgroups by auto. cbn.
  rewrite !subgroup_guarded by done.
  destruct (Z.eqb_spec (Z.of_nat (size (subgroup_claimed df (subgroup_key curr)))) 1)
    as [H1|H1].
  - rewrite decide_True by lia. done.
  - rewrite decide_False by lia. by apply truediv_pred.
Qed.

(** On a guarded table whose rows are read as stored [peer_synchrony]
    returns the stated mean for every individual, in sorted order. *)
Lemma peer_synchrony_guarded (df : DataFrame) :
  plain df → guarded df →
  peer_synchrony df (compute_subgroups df) = Ok (peer_synchrony_claimed df).
Proof.
  intros Hpl Hg.
  unfold peer_synchrony, peer_synchrony_claimed, groupby_individual.
  rewrite mapM_fmap. apply mapM_Ok_fmap, Forall_forall. intros i Hi. cbn.
  rewrite iterrows_rows_of by done.
  destruct (rows_of i df) as [|r0 rest] eqn:E.
  { by apply rows_of_nonempty in Hi. }
  cbn [adjacent_pairs tail]. cbn.
  rewrite (mapM_Ok_fmap _ (synchrony_claimed df)).
  - cbn. by rewrite pairs_from_zip.
  - apply Forall_forall. intros [p c] Hpc.
    apply elem_of_pairs_from in Hpc as [H1 H2]. cbn in H1, H2.
    assert (∀ r, r ∈ r0 :: rest → r ∈ df) as Hin.
    { intros r Hr. rewrite <- E in Hr. by apply list_elem_of_filter in Hr as [_ ?]. }
    apply synchrony_step_guarded; [done|done|by apply Hin|].
    apply Hin. by right.
Qed.

(** ** individual_apparency *)

Lemma lookup_imap_rank (l : list Z) (k : nat) (t : Z) :
  t ∈ l →
  (list_to_map (imap (λ i x, (x, Z.of_nat (k + i))) l) : gmap Z Z) !! t
    = Some (Z.of_nat k + index_of t l).
Proof.
  revert k. induction l as [|x l IH]; intros k Ht.
  - by apply elem_of_nil in Ht.
  - rewrite imap_cons, list_to_map_cons. cbn [index_of].
    destruct (decide (x = t)) as [->|Hne].
    + rewrite lookup_insert_eq. f_equal. lia.
    + rewrite lookup_insert_ne by done.
      apply elem_of_cons in Ht as [->|Ht]; [done|].
      rewrite (imap_ext _ (λ i x, (x, Z.of_nat (S k + i)))).
      * rewrite (IH (S k) Ht). f_equal. lia.
      * intros i y _. cbn. do 2 f_equal. lia.
Qed.

(** The time index maps every time of the table to its rank. *)
Lemma getitem_time_index (df : DataFrame) (t : Z) :
  t ∈ time <$> df → getitem (time_index df) t = Ok (time_rank df t).
Proof.
  intros Ht. unfold getitem, time_index, time_rank.
  rewrite (lookup_imap_rank _ 0); [done|]. by apply elem_of_unique.
Qed.

Lemma foldl_max_spec (x : Z) (l : list Z) :
  foldl Z.max x l ∈ x :: l ∧ ∀ y, y ∈ x :: l → y ≤ foldl Z.max x l.
Proof.
  revert x. induction l as [|z l IH]; intros x; cbn.
  - split; [left|]. intros y Hy. apply list_elem_of_singleton in Hy. lia.
  - destruct (IH (Z.max x z)) as [Hin Hle]. split.
    + apply elem_of_cons in Hin as [Hin|Hin].
      * rewrite Hin. destruct (Z.max_spec x z) as [[_ ->]|[_ ->]];
          [right; left|left].
      * right. by right.
    + intros y Hy.
      assert (Z.max x z ≤ foldl Z.max (Z.max x z) l) as Hm by (apply Hle; left).
      apply elem_of_cons in Hy as [->|Hy]; [lia|].
      apply elem_of_cons in Hy as [->|Hy]; [lia|].
      apply Hle. by right.
Qed.

Lemma foldl_min_spec (x : Z) (l : list Z) :
  foldl Z.min x l ∈ x :: l ∧ ∀ y, y ∈ x :: l → foldl Z.min x l ≤ y.
Proof.
  revert x. induction l as [|z l IH]; intros x; cbn.
  - split; [left|]. intros y Hy. apply list_elem_of_singleton in Hy. lia.
  - destruct (IH (Z.min x z)) as [Hin Hle]. split.
    + apply elem_of_cons in Hin as [Hin|Hin].
      * rewrite Hin. destruct (Z.min_spec x z) as [[_ ->]|[_ ->]];
          [left|right; left].
      * right. by right.
    + intros y Hy.
      assert (foldl Z.min (Z.min x z) l ≤ Z.min x z) as Hm by (apply Hle; left).
      apply elem_of_cons in Hy as [->|Hy]; [lia|].
      apply elem_of_cons in Hy as [->|Hy]; [lia|].
      apply Hle. by right.
Qed.

Lemma py_max_min_extremes (l : list Z) :
  l ≠ [] → ∃ hi lo, py_max l = Ok hi ∧ py_min l = Ok lo ∧ extremes l hi lo.
Proof.
  destruct l as [|x l]; [done|]. intros _.
  destruct (foldl_max_spec x l) as [H1 H2], (foldl_min_spec x l) as [H3 H4].
  exists (foldl Z.max x l), (foldl Z.min x l). repeat split; auto.
Qed.

(** The duration of a colour, as the dict comprehension computes it. *)
Lemma apparency_of_group (df : DataFrame) (c : cell) :
  c ∈ icolor <$> df →
  ∃ hi lo, extremes (times_of df c) hi lo
         ∧ (hi' ← py_max (times_of df c);
            lo' ← py_min (times_of df c);
            d ← diff (time_index df) hi' lo';
            mret (c, d))
           = Ok (c, time_rank df hi - time_rank df lo + 1).
Proof.
  intros Hc. apply list_elem_of_fmap in Hc as (r & -> & Hr).
  destruct (py_max_min_extremes (times_of df (icolor r))) as (hi & lo & -> & -> & He).
  { intros Hnil.
    assert (time r ∈ times_of df (icolor r)) as Hin.
    { apply list_elem_of_fmap. exists r. split; [done|].
      by apply list_elem_of_filter. }
    rewrite Hnil in Hin. by apply elem_of_nil in Hin. }
  exists hi, lo. split; [done|]. cbn. unfold diff.
  destruct He as (Hhi & Hlo & _).
  assert (∀ t, t ∈ times_of df (icolor r) → t ∈ time <$> df) as Hsub.
  { intros t Ht. apply list_elem_of_fmap in Ht as (r' & -> & Hr').
    apply list_elem_of_filter in Hr' as [_ Hr'].
    apply list_elem_of_fmap. by exists r'. }
  rewrite !getitem_time_index by auto. done.
Qed.

Lemma foldr_max_spec (d : Z) (l : list Z) :
  foldr Z.max d l ∈ d :: l ∧ ∀ y, y ∈ d :: l → y ≤ foldr Z.max d l.
Proof.
  induction l as [|x l [Hin Hle]]; cbn.
  - split; [left|]. intros y Hy. apply list_elem_of_singleton in Hy. lia.
  - split.
    + destruct (Z.max_spec x (foldr Z.max d l)) as [[_ ->]|[_ ->]].
      * apply elem_of_cons in Hin as [->|Hin]; [left|right; by right].
      * right; left.
    + intros y Hy. assert (d ≤ foldr Z.max d l) by (apply Hle; left).
      apply elem_of_cons in Hy as [->|Hy]; [lia|].
      apply elem_of_cons in Hy as [->|Hy]; [lia|].
      assert (y ≤ foldr Z.max d l) by (apply Hle; by right). lia.
Qed.

Lemma foldr_min_spec (d : Z) (l : list Z) :
  foldr Z.min d l ∈ d :: l ∧ ∀ y, y ∈ d :: l → foldr Z.min d l ≤ y.
Proof.
  induction l as [|x l [Hin Hle]]; cbn.
  - split; [left|]. intros y Hy. apply list_elem_of_singleton in Hy. lia.
  - split.
    + destruct (Z.min_spec x (foldr Z.min d l)) as [[_ ->]|[_ ->]].
      * right; left.
      * apply elem_of_cons in Hin as [->|Hin]; [left|right; by right].
    + intros y Hy. assert (foldr Z.min d l ≤ d) by (apply Hle; left).
      apply elem_of_cons in Hy as [->|Hy]; [lia|].
      apply elem_of_cons in Hy as [->|Hy]; [lia|].
      assert (foldr Z.min d l ≤ y) by (apply Hle; by right). lia.
Qed.

Lemma extremes_greatest_least (l : list Z) :
  l ≠ [] → extremes l (greatest l) (least l).
Proof.
  destruct l as [|x l]; [done|]. intros _. unfold greatest, least. cbn [head default].
  destruct (foldr_max_spec x (x :: l)) as [H1 H2].
  destruct (foldr_min_spec x (x :: l)) as [H3 H4].
  assert (∀ y, y ∈ x :: x :: l → y ∈ x :: l) as Hdup.
  { intros y Hy. apply elem_of_cons in Hy as [->|Hy]; [left|done]. }
  repeat split; auto.
  - apply H4. by right.
  - apply H2. by right.
Qed.

Lemma extremes_unique (l : list Z) (hi lo hi' lo' : Z) :
  extremes l hi lo → extremes l hi' lo' → hi = hi' ∧ lo = lo'.
Proof.
  intros (H1 & H2 & H3) (H1' & H2' & H3').
  pose proof (H3 hi' H1'). pose proof (H3' hi H1).
  pose proof (H3 lo' H2'). pose proof (H3' lo H2). lia.
Qed.

(** The dict of durations: one entry per colour of the table, none for
    the missing value. *)
Lemma community_apparency_ok (df : DataFrame) :
  ∃ ca, community_apparency df = Ok ca
      ∧ ca !! None = None
      ∧ ∀ c, Some c ∈ icolor <$> df → ca !! Some c = Some (duration df (Some c)).
Proof.
  unfold community_apparency, grouped. rewrite mapM_fmap.
  rewrite (mapM_Ok_fmap _ (λ k, (k, duration df k))).
  - cbn. eexists. split; [done|]. split.
    + apply not_elem_of_list_to_map_1.
      rewrite <- list_fmap_compose. cbn. rewrite list_fmap_id.
      rewrite elem_of_unique, list_elem_of_filter. by intros [[=] _].
    + intros c Hc. apply elem_of_list_to_map_1.
      * rewrite <- list_fmap_compose. cbn. rewrite list_fmap_id.
        apply NoDup_unique.
      * apply list_elem_of_fmap. exists (Some c). split; [done|].
        apply elem_of_unique, list_elem_of_filter. done.
  - apply Forall_forall. intros k Hk.
    apply elem_of_unique, list_elem_of_filter in Hk as [_ Hk].
    destruct (apparency_of_group df k Hk) as (hi & lo & He & Hcomp).
    cbn. fold (times_of df k). rewrite Hcomp. do 2 f_equal. unfold duration.
    assert (times_of df k ≠ []) as Hne.
    { destruct He as (Hhi & _). intros Hnil. rewrite Hnil in Hhi.
      by apply elem_of_nil in Hhi. }
    destruct (extremes_unique _ _ _ _ _ He (extremes_greatest_least _ Hne))
      as [-> ->].
    done.
Qed.

(** [individual_apparency] raises on every table that has an observation
    without own colour. *)
Lemma individual_apparency_raises (df : DataFrame) (r : Row) :
  r ∈ df → icolor r = None → individual_apparency df = Raise KeyError.
Proof.
  intros Hr Hc. destruct (rows_of_individual df r Hr) as [Hi Hrows].
  destruct (community_apparency_ok df) as (ca & Hca & Hnone & _).
  assert (∀ (ic : cell) e', inject_Z <$> getitem ca ic = Raise e' → e' = KeyError)
    as Hget.
  { intros ic e'. destruct (getitem ca ic) as [v|e0] eqn:E; cbn; [done|].
    intros [= <-]. by apply getitem_raises in E. }
  unfold individual_apparency. rewrite Hca. cbn.
  unfold groupby_individual. rewrite mapM_fmap.
  apply (mapM_Raise_uniform _ _ (individual r)); [|done|].
  - intros i e'. cbn.
    destruct (mapM _ (unique (icolor <$> rows_of i df))) as [xs|e0] eqn:E;
      cbn; [done|].
    intros [= <-]. eapply mapM_Raise_only; [|exact E]. apply Hget.
  - cbn. rewrite (mapM_Raise_uniform _ _ None KeyError); [done|apply Hget| |].
    + apply elem_of_unique, list_elem_of_fmap. exists r. by rewrite Hc.
    + unfold getitem. by rewrite Hnone.
Qed.

(** Without a missing own colour, [individual_apparency] averages the
    durations of the distinct colours the individual has held. *)
Lemma individual_apparency_no_missing (df : DataFrame) :
  Forall (λ r, is_Some (icolor r)) df →
  individual_apparency df
    = Ok ((λ i, avg ((λ c, inject_Z (duration df c))
                       <$> unique (icolor <$> rows_of i df)))
            <$> individuals df).
Proof.
  intros Hall. destruct (community_apparency_ok df) as (ca & Hca & _ & Hsome).
  unfold individual_apparency. rewrite Hca. cbn.
  unfold groupby_individual. rewrite mapM_fmap.
  apply mapM_Ok_fmap, Forall_forall. intros i _. cbn.
  rewrite (mapM_Ok_fmap _ (λ c, inject_Z (duration df c))); [done|].
  apply Forall_forall. intros c Hc.
  apply elem_of_unique, list_elem_of_fmap in Hc as (r & -> & Hr).
  apply list_elem_of_filter in Hr as [_ Hr].
  rewrite Forall_forall in Hall. destruct (Hall r Hr) as [c Hc].
  unfold getitem. rewrite Hc, (Hsome c); [done|].
  apply list_elem_of_fmap. exists r. by rewrite Hc.
Qed.

(** * Further properties of the code *)

(** ** adjacent_pairs *)

(** X1.  On a non-empty iterable [adjacent_pairs] yields one pair less
    than there are items, and its [i]-th pair is made of the [i]-th item
    and the item after it. *)
Theorem adjacent_pairs_lookup {A} (items : list A) :
  items ≠ [] →
  ∃ pairs, adjacent_pairs items = Ok pairs
         ∧ length pairs = pred (length items)
         ∧ ∀ (i : nat) (a b : A),
             pairs !! i = Some (a, b)
             ↔ items !! i = Some a ∧ items !! S i = Some b.
Proof.
  destruct items as [|prev it]; [done|]. intros _.
  exists (pairs_from prev it). split; [done|].
  rewrite pairs_from_zip. split.
  - rewrite length_zip. cbn [length Init.Nat.pred]. lia.
  - intros i a b. by rewrite lookup_zip_Some.
Qed.

Lemma adjacent_pairs_lookup_witness :
  [3; 5; 8] ≠ []
  ∧ ∃ pairs, adjacent_pairs [3; 5; 8] = Ok pairs
           ∧ length pairs = 2%nat
           ∧ ∀ (i : nat) (a b : Z),
               pairs !! i = Some (a, b)
               ↔ [3; 5; 8] !! i = Some a ∧ [3; 5; 8] !! S i = Some b.
Proof.
  assert ([3; 5; 8] ≠ []) as H by discriminate.
  split; [exact H|]. exact (adjacent_pairs_lookup [3; 5; 8] H).
Defined.

(** ** avg *)

Lemma sum_between (items : list Q) (lo hi : Q) :
  Forall (λ x, (lo <= x)%Q ∧ (x <= hi)%Q) items →
  (inject_Z (len items) * lo <= sum items)%Q
  ∧ (sum items <= inject_Z (len items) * hi)%Q.
Proof.
  induction 1 as [|x l [Hlo Hhi] _ [IHlo IHhi]].
  - unfold len, sum. cbn. split; ring_simplify; apply Qle_refl.
  - rewrite sum_cons, inject_Z_len_cons. split.
    + assert ((1 + inject_Z (len l)) * lo == lo + inject_Z (len l) * lo)%Q
        as -> by ring.
      by apply Qplus_le_compat.
    + assert ((1 + inject_Z (len l)) * hi == hi + inject_Z (len l) * hi)%Q
        as -> by ring.
      by apply Qplus_le_compat.
Qed.

Lemma inject_Z_len_pos {A} (l : list A) : l ≠ [] → (0 < inject_Z (len l))%Q.
Proof.
  intros Hl. destruct l as [|x l]; [done|].
  unfold len, Qlt. cbn. lia.
Qed.

(** The average of a non-empty list lies between any bounds of its
    items. *)
Lemma avg_between (items : list Q) (lo hi : Q) :
  items ≠ [] →
  Forall (λ x, (lo <= x)%Q ∧ (x <= hi)%Q) items →
  (lo <= avg items)%Q ∧ (avg items <= hi)%Q.
Proof.
  intros Hne Hall. unfold avg.
  destruct (Z.eqb_spec (len items) 0) as [E|_].
  { destruct items; [done|]. unfold len in E. cbn in E. lia. }
  rewrite Qred_correct.
  destruct (sum_between items lo hi Hall) as [Hlo Hhi].
  pose proof (inject_Z_len_pos items Hne) as Hpos. split.
  - apply Qle_shift_div_l; [done|]. by rewrite Qmult_comm.
  - apply Qle_shift_div_r; [done|]. by rewrite Qmult_comm.
Qed.

(** ** community_stay *)

Lemma total_app (xs ys : list Z) : total (xs ++ ys) = total xs + total ys.
Proof. unfold total. induction xs as [|x xs IH]; cbn; lia. Qed.

(** The invariant of the loop of [community_stay]: the runs recorded so
    far cover the entries before [offset], the current run starts at
    [offset], and every recorded run has an entry. *)
Lemma stay_loop_invariant (prev : cell) (colors : list cell)
    (i offset : Z) (xs : list Z) :
  0 ≤ offset < i → total xs = offset → Forall (λ n, 1 ≤ n) xs →
  let r := stay_loop prev colors i offset xs in
  total r.1 = r.2 ∧ Forall (λ n, 1 ≤ n) r.1 ∧ 0 ≤ r.2 < i + len colors.
Proof.
  revert prev i offset xs.
  induction colors as [|c rest IH]; intros prev i offset xs Hoff Hsum Hall.
  - cbn. unfold len. cbn. repeat split; auto; lia.
  - cbn [stay_loop]. unfold len. cbn [length]. rewrite Nat2Z.inj_succ.
    destruct (cell_eq c prev).
    + specialize (IH c (i + 1) offset xs). cbn in IH. unfold len in IH.
      destruct IH as (H1 & H2 & H3); auto; [lia|]. repeat split; auto; lia.
    + specialize (IH c (i + 1) i (xs ++ [i - offset])). cbn in IH.
      unfold len in IH.
      destruct IH as (H1 & H2 & H3); [lia| |apply Forall_app; split; auto|].
      * rewrite total_app. unfold total. cbn. fold (total xs). lia.
      * repeat constructor. lia.
      * repeat split; auto; lia.
Qed.

Lemma stay_runs_total (colors : list cell) :
  total (stay_runs colors) = len colors
  ∧ Forall (λ n, 1 ≤ n) (stay_runs colors).
Proof.
  destruct colors as [|c0 rest]; [by split|].
  unfold stay_runs.
  pose proof (stay_loop_invariant c0 rest 1 0 []) as H. cbn zeta in H.
  destruct (stay_loop c0 rest 1 0 []) as [xs offset]. cbn [fst snd] in H.
  destruct H as (H1 & H2 & H3); [lia|done|constructor|].
  unfold len in *. cbn [length] in *. rewrite Nat2Z.inj_succ. split.
  - rewrite total_app. unfold total at 2. cbn. lia.
  - apply Forall_app. split; [done|]. repeat constructor. lia.
Qed.

(** X3.  The run lengths that [community_stay] collects for a colour
    sequence are all at least 1 and add up to the number of entries: the
    runs partition the observations. *)
Theorem stay_runs_partition (colors : list cell) :
  total (stay_runs colors) = len colors
  ∧ Forall (λ n, 1 ≤ n) (stay_runs colors).
Proof. apply stay_runs_total. Qed.

Lemma stay_runs_nonempty (colors : list cell) :
  colors ≠ [] → stay_runs colors ≠ [].
Proof.
  destruct colors as [|c0 rest]; [done|]. intros _. unfold stay_runs.
  destruct (stay_loop c0 rest 1 0 []) as [xs offset].
  by destruct xs.
Qed.

Lemma total_le_len (xs : list Z) (n : Z) :
  Forall (λ x, 1 ≤ x) xs → total xs = n → len xs ≤ n ∧ Forall (λ x, x ≤ n) xs.
Proof.
  intros Hall. revert n. induction Hall as [|x xs Hx _ IH]; intros n Hn.
  - unfold len. cbn in *. split; [lia|constructor].
  - unfold total in Hn. cbn in Hn. fold (total xs) in Hn.
    destruct (IH (n - x)) as [H1 H2]; [lia|].
    unfold len in *. cbn [length]. rewrite Nat2Z.inj_succ. split; [lia|].
    constructor; [lia|]. eapply Forall_impl; [exact H2|]. cbn. lia.
Qed.

Lemma community_stay_fmap (df : DataFrame) :
  community_stay df
    = (λ i, avg (inject_Z <$> stay_runs (icolor <$> rows_of i df)))
      <$> individuals df.
Proof.
  unfold community_stay, groupby_individual. rewrite <- list_fmap_compose.
  apply list_fmap_ext. intros n i Hi. cbn.
  apply list_elem_of_lookup_2, rows_of_nonempty in Hi.
  destruct (rows_of i df); done.
Qed.

(** X4.  For every individual, [community_stay] is at least 1 and at most
    the number of its observations. *)
Theorem community_stay_bounds (df : DataFrame) :
  Forall2 (λ i v, (1 <= v)%Q ∧ (v <= inject_Z (len (rows_of i df)))%Q)
    (individuals df) (community_stay df).
Proof.
  rewrite community_stay_fmap. apply Forall2_fmap_r, Forall_Forall2_diag.
  apply Forall_forall. intros i Hi.
  pose proof (rows_of_nonempty df i Hi) as Hne.
  destruct (stay_runs_total (icolor <$> rows_of i df)) as [Hsum Hall].
  destruct (total_le_len _ _ Hall Hsum) as [_ Hle].
  unfold len in Hle. rewrite length_fmap in Hle.
  apply avg_between.
  - intros Hnil. apply fmap_nil_inv in Hnil.
    apply stay_runs_nonempty in Hnil; [done|].
    intros Hn. apply fmap_nil_inv in Hn. done.
  - apply Forall_fmap, Forall_forall. intros n Hn. cbn.
    rewrite Forall_forall in Hall, Hle. specialize (Hall n Hn).
    specialize (Hle n Hn). unfold len. change 1%Q with (inject_Z 1).
    rewrite <- !Zle_Qle. lia.
Qed.

Lemma stay_loop_length (prev : cell) (colors : list cell)
    (i offset : Z) (xs : list Z) :
  len (stay_loop prev colors i offset xs).1 = len xs + changes prev colors.
Proof.
  revert prev i offset xs.
  induction colors as [|c rest IH]; intros prev i offset xs.
  - cbn. lia.
  - cbn [stay_loop changes]. destruct (cell_eq c prev).
    + rewrite IH. lia.
    + rewrite IH. unfold len. rewrite length_app. cbn. lia.
Qed.

Lemma cell_eq_ne (a b : cell) : cell_eq a b = negb (cell_ne b a).
Proof.
  destruct a as [x|], b as [y|]; cbn; try done.
  rewrite negb_involutive. apply Z.eqb_sym.
Qed.

Lemma missing_cons (c : cell) (rest : list cell) :
  missing (c :: rest) = (if isnull c then 1 else 0) + missing rest.
Proof.
  unfold missing, len. rewrite filter_cons.
  destruct c as [x|]; cbn [isnull].
  - rewrite decide_False by done. lia.
  - rewrite decide_True by done. cbn [length]. lia.
Qed.

Lemma changes_run_starts (prev : cell) (colors : list cell) :
  changes prev colors = run_starts prev colors + missing colors.
Proof.
  revert prev. induction colors as [|c rest IH]; intros prev; [done|].
  cbn [changes]. rewrite run_starts_cons, missing_cons, IH, cell_eq_ne.
  destruct c as [x|]; cbn [notna isnull negb].
  - destruct (cell_ne prev (Some x)); cbn [negb andb]; lia.
  - destruct prev; cbn; lia.
Qed.

(** The runs of [community_stay] are the runs of equal colours plus one
    run for every missing entry. *)
Lemma stay_runs_color_runs (colors : list cell) :
  len (stay_runs colors) = len (color_runs colors) + missing colors.
Proof.
  destruct colors as [|c0 rest]; [done|].
  pose proof (run_starts_color_runs None (c0 :: rest)) as H.
  change (continues None (c0 :: rest)) with false in H. cbv iota in H.
  rewrite Z.add_0_r in H. rewrite <- H, run_starts_cons, missing_cons.
  unfold stay_runs.
  pose proof (stay_loop_length c0 rest 1 0 []) as Hl.
  destruct (stay_loop c0 rest 1 0 []) as [xs offset]. cbn [fst] in Hl.
  unfold len in *. rewrite length_app. cbn [length] in *.
  rewrite Nat2Z.inj_add, Hl, changes_run_starts. unfold len.
  destruct c0 as [x|]; cbn; lia.
Qed.

(** X5.  On a table whose colours are exact, [cyclicity] and
    [community_stay] count the same run boundaries: for every individual,
    [cyclicity] is the number of runs that [community_stay] delimits,
    minus the number of its observations with a missing colour, minus the
    number of distinct colours it has held. *)
Theorem cyclicity_stay_runs (df : DataFrame) :
  exact_colors df →
  cyclicity df
    = (λ i, let colors := icolor <$> rows_of i df in
            len (stay_runs colors) - missing colors - nunique colors)
      <$> individuals df.
Proof.
  intros Hex. unfold cyclicity, groupby_individual.
  rewrite <- list_fmap_compose.
  apply list_fmap_ext. intros n i _. cbn.
  rewrite count_consecutive_uniques by (by apply exact_colors_rows_of).
  rewrite stay_runs_color_runs. lia.
Qed.

Lemma cyclicity_stay_runs_witness :
  exact_colors table_gaps
  ∧ cyclicity table_gaps
    = (λ i, let colors := icolor <$> rows_of i table_gaps in
            len (stay_runs colors) - missing colors - nunique colors)
      <$> individuals table_gaps.
Proof.
  assert (exact_colors table_gaps) as H by (repeat constructor).
  split; [exact H|]. exact (cyclicity_stay_runs table_gaps H).
Defined.

Lemma stay_loop_constant (c : Z) (colors : list cell) (i offset : Z) (xs : list Z) :
  Forall (λ x, x = Some c) colors →
  stay_loop (Some c) colors i offset xs = (xs, offset).
Proof.
  intros Hall. revert i. induction Hall as [|x l -> _ IH]; intros i; [done|].
  cbn. rewrite Z.eqb_refl. apply IH.
Qed.

Lemma avg_singleton (x : Q) : (avg [x] == x)%Q.
Proof.
  change (avg [x]) with (Qred (sum [x] / inject_Z 1)).
  rewrite Qred_correct. unfold sum. cbn [foldl]. field.
Qed.

(** X6.  An individual whose colour is present and the same in all its
    observations has a [community_stay] equal to the number of its
    observations. *)
Theorem community_stay_constant (df : DataFrame) (n : nat) (i c : Z) :
  individuals df !! n = Some i →
  Forall (λ r, icolor r = Some c) (rows_of i df) →
  ∃ v, community_stay df !! n = Some v
     ∧ (v == inject_Z (len (rows_of i df)))%Q.
Proof.
  intros Hn Hall. rewrite community_stay_fmap, list_lookup_fmap, Hn. cbn.
  eexists. split; [done|].
  pose proof (rows_of_nonempty df i (list_elem_of_lookup_2 _ _ _ Hn)) as Hne.
  destruct (rows_of i df) as [|r0 rest]; [done|].
  apply Forall_cons in Hall as [H0 Hall].
  rewrite fmap_cons, H0. unfold stay_runs.
  rewrite stay_loop_constant by (by apply Forall_fmap).
  cbn [app fmap list_fmap]. rewrite avg_singleton.
  unfold len. cbn [length]. rewrite length_fmap, Z.sub_0_r. reflexivity.
Qed.

Lemma community_stay_constant_witness :
  individuals table_order !! 1%nat = Some 2
  ∧ Forall (λ r, icolor r = Some 5) (rows_of 2 table_order)
  ∧ ∃ v, community_stay table_order !! 1%nat = Some v
       ∧ (v == inject_Z (len (rows_of 2 table_order)))%Q.
Proof.
  assert (individuals table_order !! 1%nat = Some 2) as H1 by reflexivity.
  assert (Forall (λ r, icolor r = Some 5) (rows_of 2 table_order)) as H2
    by (repeat constructor).
  split; [exact H1|]. split; [exact H2|].
  exact (community_stay_constant table_order 1 2 5 H1 H2).
Defined.

(** X7.  An individual with exactly one observation has [community_stay]
    1 and [cyclicity] 0, and [peer_synchrony], whenever it returns and
    whatever index it is given, has 0 for it. *)
Theorem single_observation (df : DataFrame) (n : nat) (i : Z) (r : Row)
    (community_subgroups : gmap (Z * cell * cell) (gset Z)) :
  individuals df !! n = Some i →
  rows_of i df = [r] →
  community_stay df !! n = Some 1%Q
  ∧ cyclicity df !! n = Some 0
  ∧ ∀ vs, peer_synchrony df community_subgroups = Ok vs → vs !! n = Some 0%Q.
Proof.
  intros Hn Hr. split; [|split].
  - rewrite community_stay_fmap, list_lookup_fmap, Hn. cbn. rewrite Hr.
    reflexivity.
  - unfold cyclicity, groupby_individual.
    rewrite <- list_fmap_compose, list_lookup_fmap, Hn. cbn. rewrite Hr.
    change (icolor <$> [r]) with [icolor r].
    destruct (icolor r); reflexivity.
  - intros vs Hvs. unfold peer_synchrony, groupby_individual in Hvs.
    rewrite mapM_fmap in Hvs.
    destruct (mapM_Ok_lookup _ _ _ n i Hvs Hn) as (v & Hv & Hf).
    cbn in Hf. rewrite Hr in Hf. cbn in Hf. by injection Hf as <-.
Qed.

Lemma single_observation_witness :
  individuals table_order !! 0%nat = Some 1
  ∧ rows_of 1 table_order = [mkRow 1 (Some 10) 1 (Some 5) (Some 5)]
  ∧ peer_synchrony table_order (compute_subgroups table_order)
      = Ok [0%Q; 0%Q]
  ∧ community_stay table_order !! 0%nat = Some 1%Q
  ∧ cyclicity table_order !! 0%nat = Some 0
  ∧ ∀ vs, peer_synchrony table_order (compute_subgroups table_order) = Ok vs →
          vs !! 0%nat = Some 0%Q.
Proof.
  assert (individuals table_order !! 0%nat = Some 1) as H1 by reflexivity.
  assert (rows_of 1 table_order = [mkRow 1 (Some 10) 1 (Some 5) (Some 5)]) as H2
    by reflexivity.
  assert (peer_synchrony table_order (compute_subgroups table_order)
            = Ok [0%Q; 0%Q]) as H3 by (vm_compute; reflexivity).
  split; [exact H1|]. split; [exact H2|]. split; [exact H3|].
  exact (single_observation table_order 0 1 _
           (compute_subgroups table_order) H1 H2).
Defined.

(** ** compute_subgroups *)

(** X8.  Every observation without a missing field is found again in the
    subgroup index: the entry under its own (time, group, colour), as the
    loop reads the row, exists and holds its individual. *)
Theorem compute_subgroups_member (df : DataFrame) (r : Row) :
  r ∈ df → complete r = true →
  let x := read df r in
  ∃ members, compute_subgroups df !! (time x, group x, icolor x) = Some members
           ∧ individual x ∈ members.
Proof.
  intros Hr Hc x. exists (subgroup df (subgroup_key x)). split.
  - pose proof (getitem_compute_subgroups_read df r Hr Hc) as H.
    unfold getitem in H. fold x in H.
    change (time x, group x, icolor x) with (subgroup_key x).
    by destruct (compute_subgroups df !! subgroup_key x) as [m|];
      [injection H as ->|].
  - by apply elem_of_subgroup_read.
Qed.

Lemma compute_subgroups_member_witness :
  mkRow 2 (Some 11) 2 (Some 7) (Some 7) ∈ table_scenario
  ∧ complete (mkRow 2 (Some 11) 2 (Some 7) (Some 7)) = true
  ∧ ∃ members, compute_subgroups table_scenario !! (2, Some 11, Some 7) = Some members
             ∧ 2 ∈ members.
Proof.
  assert (mkRow 2 (Some 11) 2 (Some 7) (Some 7) ∈ table_scenario) as H1.
  { apply (bool_decide_unpack _). vm_compute. exact I. }
  assert (complete (mkRow 2 (Some 11) 2 (Some 7) (Some 7)) = true) as H2
    by reflexivity.
  split; [exact H1|]. split; [exact H2|].
  exact (compute_subgroups_member table_scenario _ H1 H2).
Defined.

(** X9.  The subgroup index never holds a key with a missing group or
    colour, and never an empty set. *)
Theorem compute_subgroups_entries (df : DataFrame) (t : Z) (g c : cell)
    (members : gset Z) :
  compute_subgroups df !! (t, g, c) = Some members →
  is_Some g ∧ is_Some c ∧ members ≠ ∅.
Proof.
  rewrite lookup_compute_subgroups. case_decide as Hk; [|done].
  intros [= <-].
  apply list_elem_of_fmap in Hk as (x & Hkey & Hx).
  apply list_elem_of_fmap in Hx as (r & -> & Hr).
  apply list_elem_of_filter in Hr as [Hc Hr].
  unfold subgroup_key in Hkey. injection Hkey as -> -> ->.
  pose proof (elem_of_subgroup_read df r Hr Hc) as Hin.
  rewrite <- (complete_read df) in Hc. unfold complete in Hc.
  apply andb_true_iff in Hc as [Hc Hi]. apply andb_true_iff in Hc as [Hg _].
  split; [by destruct (group (read df r))|].
  split; [by destruct (icolor (read df r))|].
  intros Hempty. unfold subgroup_key in Hin.
  rewrite Hempty in Hin. by apply elem_of_empty in Hin.
Qed.

Lemma compute_subgroups_entries_witness :
  compute_subgroups table_scenario !! (2, Some 11, Some 7)
    = Some (subgroup table_scenario (2, Some 11, Some 7))
  ∧ is_Some (Some 11) ∧ is_Some (Some 7)
  ∧ subgroup table_scenario (2, Some 11, Some 7) ≠ ∅.
Proof.
  assert (compute_subgroups table_scenario !! (2, Some 11, Some 7)
            = Some (subgroup table_scenario (2, Some 11, Some 7))) as H
    by (vm_compute; reflexivity).
  split; [exact H|].
  exact (compute_subgroups_entries table_scenario 2 (Some 11) (Some 7) _ H).
Defined.

(** ** avg_num_peers *)

Lemma sum_lower (items : list Q) (lo : Q) :
  Forall (λ x, (lo <= x)%Q) items →
  (inject_Z (len items) * lo <= sum items)%Q.
Proof.
  induction 1 as [|x l Hlo _ IH].
  - unfold len, sum. cbn. ring_simplify. apply Qle_refl.
  - rewrite sum_cons, inject_Z_len_cons.
    assert ((1 + inject_Z (len l)) * lo == lo + inject_Z (len l) * lo)%Q
      as -> by ring.
    by apply Qplus_le_compat.
Qed.

Lemma avg_nonneg (items : list Q) :
  Forall (λ x, (0 <= x)%Q) items → (0 <= avg items)%Q.
Proof.
  intros Hall. unfold avg.
  destruct (Z.eqb_spec (len items) 0) as [E|E]; [apply Qle_refl|].
  rewrite Qred_correct. apply Qle_shift_div_l.
  - apply inject_Z_len_pos. intros ->. by apply E.
  - pose proof (sum_lower items 0 Hall) as H.
    by rewrite Qmult_0_l, Qmult_0_r in *.
Qed.

Lemma subgroup_size_pos (df : DataFrame) (r : Row) :
  r ∈ df → complete r = true →
  (1 ≤ size (subgroup df (subgroup_key (read df r))))%nat.
Proof.
  intros Hr Hc.
  pose proof (elem_of_subgroup_read df r Hr Hc) as Hin.
  destruct (size (subgroup df (subgroup_key (read df r)))) eqn:E; [|lia].
  apply size_empty_inv in E. cbv [equiv] in E.
  apply (set_equiv_subseteq _ _) in E as [E _]. apply E in Hin.
  by apply elem_of_empty in Hin.
Qed.

(** X10.  Given the index computed from the same table, [avg_num_peers]
    never raises: every lookup hits.  For every individual it is the
    average, over its observations without a missing field, of the size
    of the subgroup of the observation as the loop reads it, less one,
    and it is never negative. *)
Theorem avg_num_peers_total (df : DataFrame) :
  let peers :=
    (λ r, inject_Z (Z.of_nat (size (subgroup df (subgroup_key (read df r)))) - 1)) in
  let values := (λ i, avg (peers <$> dropna (rows_of i df))) <$> individuals df in
  avg_num_peers df (compute_subgroups df) = Ok values
  ∧ Forall (λ v, (0 <= v)%Q) values.
Proof.
  cbn zeta. split.
  - unfold avg_num_peers, groupby_individual.
    rewrite mapM_fmap. apply mapM_Ok_fmap, Forall_forall. intros i _. cbn.
    unfold iterrows. rewrite mapM_fmap.
    rewrite (mapM_Ok_fmap _
      (λ r, inject_Z (Z.of_nat (size (subgroup df (subgroup_key (read df r)))) - 1)));
      [done|].
    apply Forall_forall. intros r Hr.
    apply elem_of_dropna_rows_of in Hr as (Hr & _ & Hc). cbn.
    change (time (read df r), group (read df r), icolor (read df r))
      with (subgroup_key (read df r)).
    by rewrite getitem_compute_subgroups_read.
  - apply Forall_fmap, Forall_forall. intros i _. cbn.
    apply avg_nonneg, Forall_fmap, Forall_forall. intros r Hr. cbn.
    apply elem_of_dropna_rows_of in Hr as (Hr & _ & Hc).
    pose proof (subgroup_size_pos df r Hr Hc).
    change 0%Q with (inject_Z 0). rewrite <- Zle_Qle. lia.
Qed.

(** ** peer_synchrony *)

Lemma synchrony_step_raises (community_subgroups : gmap (Z * cell * cell) (gset Z))
    (prev_row curr_row : Row) (e : exn) :
  synchrony_step community_subgroups prev_row curr_row = Raise e → e = KeyError.
Proof.
  unfold synchrony_step.
  destruct (isnull (group prev_row) || isnull (group curr_row)); [done|].
  destruct (getitem community_subgroups (time prev_row, _, _)) as [m1|e1] eqn:E1;
    cbn; [|intros [= <-]; by apply getitem_raises in E1].
  destruct (getitem community_subgroups (time curr_row, _, _)) as [m2|e2] eqn:E2;
    cbn; [|intros [= <-]; by apply getitem_raises in E2].
  destruct (Z.eqb_spec (Z.of_nat (size m2)) 1) as [H1|H1]; [done|].
  by rewrite truediv_pred.
Qed.

(** X11.  Whatever table and index it is given, the only exception
    [peer_synchrony] can raise is [KeyError]: the iteration over adjacent
    pairs never starts on an empty group, and the division is never by
    zero. *)
Theorem peer_synchrony_raises_only_KeyError (df : DataFrame)
    (community_subgroups : gmap (Z * cell * cell) (gset Z)) (e : exn) :
  peer_synchrony df community_subgroups = Raise e → e = KeyError.
Proof.
  unfold peer_synchrony, groupby_individual. rewrite mapM_fmap.
  apply mapM_Raise_only_elem. intros i e' Hi. cbn.
  apply rows_of_nonempty in Hi.
  destruct (rows_of i df) as [|r0 rest]; [done|]. cbn.
  destruct (mapM _ (pairs_from _ _)) as [xs|e0] eqn:E; cbn; [done|].
  intros [= <-]. eapply mapM_Raise_only; [|exact E].
  intros [p c] e''. apply synchrony_step_raises.
Qed.

Lemma peer_synchrony_raises_only_KeyError_witness :
  peer_synchrony table_late_icolor (compute_subgroups table_late_icolor)
    = Raise KeyError
  ∧ KeyError = KeyError.
Proof.
  assert (peer_synchrony table_late_icolor (compute_subgroups table_late_icolor)
            = Raise KeyError) as H by (vm_compute; reflexivity).
  split; [exact H|].
  exact (peer_synchrony_raises_only_KeyError _ _ _ H).
Defined.

Lemma inject_Z_pred (n : Z) : (inject_Z n - 1 == inject_Z (n - 1))%Q.
Proof. unfold Qeq. cbn. lia. Qed.

Lemma unit_fraction (a b : Z) :
  1 ≤ a ≤ b → b ≠ 1 →
  (0 <= Qred ((inject_Z a - 1) / (inject_Z b - 1)))%Q
  ∧ (Qred ((inject_Z a - 1) / (inject_Z b - 1)) <= 1)%Q.
Proof.
  intros Hab Hb. rewrite Qred_correct, !inject_Z_pred.
  assert (0 < inject_Z (b - 1))%Q as Hpos.
  { change 0%Q with (inject_Z 0). rewrite <- Zlt_Qlt. lia. }
  split.
  - apply Qle_shift_div_l; [done|]. rewrite Qmult_0_l.
    change 0%Q with (inject_Z 0). rewrite <- Zle_Qle. lia.
  - apply Qle_shift_div_r; [done|]. rewrite Qmult_1_l.
    rewrite <- Zle_Qle. lia.
Qed.

Lemma synchrony_step_unit (df : DataFrame) (prev curr : Row) :
  guarded df → prev ∈ df → curr ∈ df → individual prev = individual curr →
  ∃ v, synchrony_step (compute_subgroups df) (read df prev) (read df curr)
         = Ok v
     ∧ (0 <= v)%Q ∧ (v <= 1)%Q.
Proof.
  intros Hg Hp Hc Hi. unfold synchrony_step.
  rewrite !isnull_group_read.
  destruct (isnull (group prev) || isnull (group curr)) eqn:E.
  { by exists 0%Q. }
  apply orb_false_elim in E as [E1 E2].
  unfold guarded in Hg. rewrite Forall_forall in Hg.
  assert (complete prev = true) as Hcp.
  { apply Hg; [done|]. destruct (group prev); [by eexists|done]. }
  assert (complete curr = true) as Hcc.
  { apply Hg; [done|]. destruct (group curr); [by eexists|done]. }
  change (time (read df prev), group (read df prev), icolor (read df prev))
    with (subgroup_key (read df prev)).
  change (time (read df curr), group (read df curr), icolor (read df curr))
    with (subgroup_key (read df curr)).
  rewrite !getitem_compute_subgroups_read by done. cbn.
  pose proof (elem_of_subgroup_read df prev Hp Hcp) as H1.
  pose proof (elem_of_subgroup_read df curr Hc Hcc) as H2.
  rewrite (individual_read df prev curr Hi) in H1.
  set (S1 := subgroup df (subgroup_key (read df prev))) in *.
  set (S2 := subgroup df (subgroup_key (read df curr))) in *.
  destruct (Z.eqb_spec (Z.of_nat (size S2)) 1) as [Hs|Hs].
  { by exists 0%Q. }
  rewrite truediv_pred by done. eexists. split; [done|].
  assert (size (S1 ∩ S2) ≤ size S2)%nat as Hle
    by (apply subseteq_size; set_solver).
  assert (1 ≤ size (S1 ∩ S2))%nat as Hpos.
  { destruct (size (S1 ∩ S2)) eqn:E; [|lia].
    apply size_empty_inv in E. set_solver. }
  apply unit_fraction; lia.
Qed.

Lemma avg_unit (items : list Q) :
  Forall (λ x, (0 <= x)%Q ∧ (x <= 1)%Q) items →
  (0 <= avg items)%Q ∧ (avg items <= 1)%Q.
Proof.
  intros Hall. destruct items as [|x items]; [by split|].
  by apply avg_between.
Qed.

(** X12.  On a table whose observations with a group have no missing
    field, [peer_synchrony] returns, and every value lies between 0 and
    1. *)
Theorem peer_synchrony_unit_interval (df : DataFrame) :
  guarded df →
  ∃ vs, peer_synchrony df (compute_subgroups df) = Ok vs
      ∧ Forall (λ v, (0 <= v)%Q ∧ (v <= 1)%Q) vs.
Proof.
  intros Hg. unfold peer_synchrony, groupby_individual. rewrite mapM_fmap.
  apply mapM_Ok_Forall. intros i Hi. unfold compose. cbv beta iota.
  assert (∀ r, r ∈ rows_of i df → r ∈ df ∧ individual r = i) as Hin.
  { intros r Hr. by apply list_elem_of_filter in Hr as [? ?]. }
  apply rows_of_nonempty in Hi.
  destruct (rows_of i df) as [|r0 rest]; [done|].
  unfold iterrows. cbn [fmap list_fmap adjacent_pairs tail mbind result_bind].
  destruct (mapM_Ok_Forall
              (λ '(prev_row, curr_row),
                 synchrony_step (compute_subgroups df) prev_row curr_row)
              (λ v, (0 <= v)%Q ∧ (v <= 1)%Q)
              (pairs_from (read df r0) (read df <$> rest)))
    as (xs & -> & Hxs).
  { intros [p' c'] Hpc. apply elem_of_pairs_from in Hpc as [H1 H2].
    cbn [fst snd] in H1, H2.
    change (read df r0 :: (read df <$> rest))
      with (read df <$> (r0 :: rest)) in H1.
    apply list_elem_of_fmap in H1 as (p & -> & Hp).
    apply list_elem_of_fmap in H2 as (c & -> & Hc).
    destruct (Hin p Hp) as [Hpd Hpi].
    destruct (Hin c) as [Hcd Hci]; [by right|].
    apply synchrony_step_unit; [done|done|done|congruence]. }
  cbn. eexists. split; [done|]. by apply avg_unit.
Qed.

Lemma peer_synchrony_unit_interval_witness :
  guarded table_scenario
  ∧ ∃ vs, peer_synchrony table_scenario (compute_subgroups table_scenario) = Ok vs
        ∧ Forall (λ v, (0 <= v)%Q ∧ (v <= 1)%Q) vs.
Proof.
  assert (guarded table_scenario) as H by (repeat constructor).
  split; [exact H|]. exact (peer_synchrony_unit_interval table_scenario H).
Defined.

(** ** absenteeism *)

Lemma time_has_gcolor_elem (df : DataFrame) (r : Row) :
  time_has_gcolor df r
  ↔ time r ∈ time <$> filter (λ r', notna (gcolor r') = true) df.
Proof.
  unfold time_has_gcolor. rewrite Exists_exists, list_elem_of_fmap. split.
  - intros (r' & Hr' & Ht & [c Hc]). exists r'. split; [done|].
    apply list_elem_of_filter. split; [|done]. unfold notna. by rewrite Hc.
  - intros (r' & Ht & Hr'). apply list_elem_of_filter in Hr' as [Hc Hr'].
    exists r'. split; [done|]. split; [done|].
    unfold notna in Hc. by destruct (gcolor r'); [eexists|].
Qed.

Lemma lookup_time_gcolors (df : DataFrame) (t : Z) :
  time_gcolors df !! t
    = if decide (t ∈ time <$> filter (λ r', notna (gcolor r') = true) df)
      then Some (list_to_set
                   (gcolor <$> filter (λ r', time r' = t)
                                 (filter (λ r', notna (gcolor r') = true) df)))
      else None.
Proof.
  unfold time_gcolors. rewrite lookup_grouped_dict.
  case_decide as H1; case_decide as H2; try done.
  - by destruct H1.
  - exfalso. apply H1. by split.
Qed.

Lemma elem_of_time_gcolors (df : DataFrame) (t : Z) (c : cell) :
  c ∈@{gset cell}
    list_to_set (gcolor <$> filter (λ r', time r' = t)
                              (filter (λ r', notna (gcolor r') = true) df))
  ↔ is_Some c ∧ gcolor_at df t c.
Proof.
  unfold gcolor_at. rewrite elem_of_list_to_set, list_elem_of_fmap, Exists_exists.
  split.
  - intros (r' & -> & Hr'). apply list_elem_of_filter in Hr' as [Ht Hr'].
    apply list_elem_of_filter in Hr' as [Hc Hr'].
    split; [unfold notna in Hc; by destruct (gcolor r'); [eexists|]|].
    by exists r'.
  - intros ([x ->] & r' & Hr' & Ht & Hc). exists r'. split; [done|].
    apply list_elem_of_filter. split; [done|].
    apply list_elem_of_filter. split; [|done]. unfold notna. by rewrite Hc.
Qed.

Lemma cell_ne_true (a b : cell) : cell_ne a b = true ↔ ¬ (is_Some a ∧ a = b).
Proof.
  destruct a as [x|], b as [y|]; cbn.
  - rewrite negb_true_iff, Z.eqb_neq. split.
    + intros Hne [_ [=]]. done.
    + intros H ->. apply H. split; [by eexists|done].
  - split; [|done]. by intros _ [_ [=]].
  - split; [|done]. by intros _ [[? [=]] _].
  - split; [|done]. by intros _ [[? [=]] _].
Qed.

Lemma absent_test (df : DataFrame) (r : Row) :
  cell_ne (gcolor r) (icolor r)
  && bool_decide (icolor r ∈@{gset cell}
       list_to_set (gcolor <$> filter (λ r', time r' = time r)
                                 (filter (λ r', notna (gcolor r') = true) df)))
  = bool_decide (absent df r).
Proof.
  apply Bool.eq_true_iff_eq.
  rewrite andb_true_iff, !bool_decide_eq_true, elem_of_time_gcolors, cell_ne_true.
  unfold absent. split.
  - intros (Hne & Hs & Hat). split; [done|]. split; [|done].
    intros Heq. apply Hne. split; [|done]. by rewrite Heq.
  - intros (Hs & Hne & Hat). split; [|by split]. by intros [_ Heq].
Qed.

Lemma absent_loop_count (df : DataFrame) (rows : list Row) (n : Z) :
  Forall (time_has_gcolor df) rows →
  absent_loop (time_gcolors df) rows n
    = Ok (n + len (filter (absent df) rows)).
Proof.
  intros Hall. revert n. induction Hall as [|r rows Hr _ IH]; intros n.
  - cbn. f_equal. unfold len. cbn. lia.
  - rewrite filter_cons. cbn [absent_loop]. unfold getitem.
    rewrite lookup_time_gcolors.
    rewrite decide_True by (by apply time_has_gcolor_elem).
    cbn [mbind result_bind]. rewrite absent_test.
    case_bool_decide; case_decide; try done; rewrite IH; f_equal;
      unfold len; cbn [length]; lia.
Qed.

Lemma absent_loop_raises (tg : gmap Z (gset cell)) (rows : list Row)
    (n : Z) (e : exn) :
  absent_loop tg rows n = Raise e → e = KeyError.
Proof.
  revert n. induction rows as [|r rows IH]; intros n; cbn; [done|].
  destruct (getitem tg (time r)) as [gcolors|e0] eqn:E; cbn.
  - destruct (_ && _); apply IH.
  - intros [= <-]. by apply getitem_raises in E.
Qed.

Lemma absent_loop_miss (tg : gmap Z (gset cell)) (rows : list Row)
    (n : Z) (r : Row) :
  r ∈ rows → tg !! time r = None → absent_loop tg rows n = Raise KeyError.
Proof.
  intros Hr Hmiss. destruct (absent_loop tg rows n) as [v|e] eqn:E.
  - exfalso. revert n v E. induction Hr as [r rows|r r' rows _ IH]; intros n v; cbn.
    + unfold getitem. by rewrite Hmiss.
    + destruct (getitem tg (time r')); cbn; [|done].
      destruct (_ && _); by apply IH.
  - f_equal. by apply absent_loop_raises in E.
Qed.

Lemma ratio_unit (a b : Z) :
  0 ≤ a ≤ b → 0 < b →
  (0 <= Qred (inject_Z a / inject_Z b))%Q ∧ (Qred (inject_Z a / inject_Z b) <= 1)%Q.
Proof.
  intros Hab Hb. rewrite Qred_correct.
  assert (0 < inject_Z b)%Q as Hpos.
  { change 0%Q with (inject_Z 0). by rewrite <- Zlt_Qlt. }
  split.
  - apply Qle_shift_div_l; [done|]. rewrite Qmult_0_l.
    change 0%Q with (inject_Z 0). rewrite <- Zle_Qle. lia.
  - apply Qle_shift_div_r; [done|]. rewrite Qmult_1_l.
    rewrite <- Zle_Qle. lia.
Qed.

Lemma len_filter_le {A} (P : A → Prop) `{!∀ x, Decision (P x)} (l : list A) :
  0 ≤ len (filter P l) ≤ len l.
Proof. unfold len. pose proof (length_filter P l). lia. Qed.

Lemma len_pos {A} (l : list A) : l ≠ [] → 0 < len l.
Proof. destruct l; [done|]. unfold len. cbn. lia. Qed.

(** X13.  On a table whose rows are read as stored, when every time of
    the table has a row with a group colour, [absenteeism] returns, for
    every individual, the share of its observations that are absent (own
    colour present, different from the colour of its group, and the colour
    of some group of that time); every value lies between 0 and 1. *)
Theorem absenteeism_values (df : DataFrame) :
  plain df →
  Forall (time_has_gcolor df) df →
  let values :=
    (λ i, Qred (inject_Z (len (filter (absent df) (rows_of i df)))
                / inject_Z (len (rows_of i df)))) <$> individuals df in
  absenteeism df = Ok values
  ∧ Forall (λ v, (0 <= v)%Q ∧ (v <= 1)%Q) values.
Proof.
  intros Hp Hall. cbn zeta. split.
  - unfold absenteeism, groupby_individual.
    rewrite mapM_fmap. apply mapM_Ok_fmap, Forall_forall. intros i Hi. cbn.
    rewrite iterrows_rows_of by done.
    rewrite absent_loop_count.
    + cbn. rewrite Z.add_0_l. apply truediv_nonzero.
      pose proof (len_pos _ (rows_of_nonempty df i Hi)). lia.
    + unfold rows_of. rewrite Forall_forall in *. intros r Hr.
      apply list_elem_of_filter in Hr as [_ Hr]. by apply Hall.
  - apply Forall_fmap, Forall_forall. intros i Hi. cbn.
    apply ratio_unit; [apply len_filter_le|].
    apply len_pos. by apply rows_of_nonempty.
Qed.

Lemma absenteeism_values_witness :
  plain table_order
  ∧ Forall (time_has_gcolor table_order) table_order
  ∧ absenteeism table_order = Ok [0%Q; 0%Q]
  ∧ Forall (λ v, (0 <= v)%Q ∧ (v <= 1)%Q) [0%Q; 0%Q].
Proof.
  assert (plain table_order) as H0 by (left; reflexivity).
  assert (Forall (time_has_gcolor table_order) table_order) as H.
  { apply (bool_decide_unpack _). vm_compute. exact I. }
  split; [exact H0|]. split; [exact H|].
  exact (absenteeism_values table_order H0 H).
Defined.

Lemma time_read (df : DataFrame) (r : Row) :
  to_float (time r) = time r → time (read df r) = time r.
Proof. intros H. unfold read. by destruct (has_na df). Qed.

(** X14.  When some observation, whose time float64 holds, is at a time
    at which no row of the table has a group colour, [absenteeism] raises
    [KeyError]. *)
Theorem absenteeism_raises (df : DataFrame) (r : Row) :
  r ∈ df → to_float (time r) = time r → ¬ time_has_gcolor df r →
  absenteeism df = Raise KeyError.
Proof.
  intros Hr Ht Hno. destruct (rows_of_individual df r Hr) as [Hi Hrows].
  unfold absenteeism, groupby_individual. rewrite mapM_fmap.
  apply (mapM_Raise_uniform_elem _ _ (individual r)); [|done|].
  - intros i e' Hi'. cbn.
    destruct (absent_loop _ (iterrows df (rows_of i df)) 0) as [n|e0] eqn:E;
      cbn.
    + rewrite truediv_nonzero; [done|].
      pose proof (len_pos _ (rows_of_nonempty df i Hi')). lia.
    + intros [= <-]. by apply absent_loop_raises in E.
  - cbn. rewrite (absent_loop_miss _ _ _ (read df r)); [done| |].
    + unfold iterrows. apply list_elem_of_fmap. by exists r.
    + rewrite time_read by done.
      rewrite lookup_time_gcolors, decide_False; [done|].
      intros H. by apply Hno, time_has_gcolor_elem.
Qed.

Lemma absenteeism_raises_witness :
  mkRow 1 (Some 10) 1 None (Some 5) ∈ [mkRow 1 (Some 10) 1 None (Some 5)]
  ∧ to_float (time (mkRow 1 (Some 10) 1 None (Some 5)))
      = time (mkRow 1 (Some 10) 1 None (Some 5))
  ∧ ¬ time_has_gcolor [mkRow 1 (Some 10) 1 None (Some 5)]
        (mkRow 1 (Some 10) 1 None (Some 5))
  ∧ absenteeism [mkRow 1 (Some 10) 1 None (Some 5)] = Raise KeyError.
Proof.
  assert (mkRow 1 (Some 10) 1 None (Some 5) ∈ [mkRow 1 (Some 10) 1 None (Some 5)])
    as H1 by left.
  assert (to_float (time (mkRow 1 (Some 10) 1 None (Some 5)))
            = time (mkRow 1 (Some 10) 1 None (Some 5))) as Ht by reflexivity.
  assert (¬ time_has_gcolor [mkRow 1 (Some 10) 1 None (Some 5)]
            (mkRow 1 (Some 10) 1 None (Some 5))) as H2.
  { apply (bool_decide_eq_false_1 _). vm_compute. reflexivity. }
  split; [exact H1|]. split; [exact Ht|]. split; [exact H2|].
  exact (absenteeism_raises _ _ H1 Ht H2).
Defined.

(** ** inquisitiveness *)

(** X15.  [inquisitiveness] returns exactly when every individual has an
    observation without a missing field; otherwise it raises
    [ZeroDivisionError]. *)
Theorem inquisitiveness_returns_iff (df : DataFrame) :
  (Forall (λ i, complete_rows i df ≠ 0) (individuals df)
   → ∃ vs, inquisitiveness df = Ok vs)
  ∧ (¬ Forall (λ i, complete_rows i df ≠ 0) (individuals df)
     → inquisitiveness df = Raise ZeroDivisionError).
Proof.
  split.
  - intros Hden. eexists. unfold inquisitiveness, groupby_individual.
    rewrite mapM_fmap. apply mapM_Ok_fmap.
    eapply Forall_impl; [exact Hden|]. intros i Hi. cbn.
    by apply truediv_nonzero.
  - intros Hn. apply (not_Forall_Exists _) in Hn.
    apply Exists_exists in Hn as (i & Hi & Hz).
    apply (inquisitiveness_raises df i Hi).
    destruct (decide (complete_rows i df = 0)); done.
Qed.

Lemma inquisitiveness_returns_iff_witness :
  ¬ Forall (λ i, complete_rows i table_mixed_group ≠ 0) (individuals table_mixed_group)
  ∧ inquisitiveness table_mixed_group = Raise ZeroDivisionError.
Proof.
  assert (¬ Forall (λ i, complete_rows i table_mixed_group ≠ 0)
            (individuals table_mixed_group)) as H.
  { apply (bool_decide_eq_false_1 _). vm_compute. reflexivity. }
  split; [exact H|].
  exact (proj2 (inquisitiveness_returns_iff table_mixed_group) H).
Defined.

(** ** group_homogeneity *)

Lemma homogeneous_fraction_unit (df : DataFrame) (r : Row) :
  r ∈ df →
  (0 <= homogeneous_fraction df (time r) (group r))%Q
  ∧ (homogeneous_fraction df (time r) (group r) <= 1)%Q.
Proof.
  intros Hr. unfold homogeneous_fraction.
  apply ratio_unit; [apply len_filter_le|]. apply len_pos.
  intros Hnil.
  assert (r ∈ filter (λ r', time r' = time r ∧ group r' = group r) df) as Hin
    by (by apply list_elem_of_filter).
  rewrite Hnil in Hin. by apply elem_of_nil in Hin.
Qed.

(** X16.  On a table whose rows are read as stored, [group_homogeneity]
    returns, and every value lies between 0 and 1. *)
Theorem group_homogeneity_unit_interval (df : DataFrame) :
  plain df →
  ∃ vs, group_homogeneity df = Ok vs
      ∧ Forall (λ v, (0 <= v)%Q ∧ (v <= 1)%Q) vs.
Proof.
  intros Hp. eexists. split; [by apply group_homogeneity_values|].
  apply Forall_fmap, Forall_forall. intros i _. cbn.
  apply avg_unit, Forall_fmap, Forall_forall. intros r Hr. cbn.
  apply elem_of_dropna_rows_of in Hr as (Hr & _ & _).
  by apply homogeneous_fraction_unit.
Qed.

Lemma group_homogeneity_unit_interval_witness :
  plain table_gaps
  ∧ ∃ vs, group_homogeneity table_gaps = Ok vs
        ∧ Forall (λ v, (0 <= v)%Q ∧ (v <= 1)%Q) vs.
Proof.
  assert (plain table_gaps) as H by (right; repeat constructor).
  split; [exact H|]. exact (group_homogeneity_unit_interval table_gaps H).
Defined.

(** ** group_size *)

Lemma mean_avg (xs : list Q) : xs ≠ [] → mean xs = avg xs.
Proof.
  intros Hne. unfold mean, avg.
  destruct (Z.eqb_spec (len xs) 0) as [E|E]; [|done].
  pose proof (len_pos xs Hne). lia.
Qed.

Lemma complete_members_bounds (df : DataFrame) (r : Row) :
  r ∈ df → complete r = true →
  1 ≤ complete_members df (time r) (group r) ≤ len (dropna df).
Proof.
  intros Hr Hc. unfold complete_members. split; [|apply len_filter_le].
  assert (r ∈ filter (λ r', time r' = time r ∧ group r' = group r) (dropna df))
    as Hin.
  { apply list_elem_of_filter. split; [done|]. by apply list_elem_of_filter. }
  destruct (filter _ (dropna df)) as [|x l]; [by apply elem_of_nil in Hin|].
  unfold len. cbn. lia.
Qed.

(** X17.  On a table whose rows are read as stored and that has an
    observation without a missing field, [group_size] returns; the value of an individual is missing exactly
    when it has no observation without a missing field, and is otherwise
    at least 1 and at most the number of such observations in the
    table. *)
Theorem group_size_presence (df : DataFrame) :
  plain df → dropna df ≠ [] →
  ∃ vs, group_size df = Ok vs
      ∧ Forall2 (λ i v,
                   (v = None ↔ dropna (rows_of i df) = [])
                   ∧ ∀ q, v = Some q →
                       (1 <= q)%Q ∧ (q <= inject_Z (len (dropna df)))%Q)
          (individuals df) vs.
Proof.
  intros Hp Hne. eexists. split; [by apply group_size_values|].
  apply Forall2_fmap_r, Forall_Forall2_diag, Forall_forall. intros i _.
  unfold compose. cbn beta.
  destruct (dropna (rows_of i df)) as [|r0 rest] eqn:E.
  - split; [by split|]. by intros q [=].
  - split; [split; intros [=]|]. intros q [= <-].
    rewrite mean_avg by (cbn; discriminate).
    apply avg_between; [cbn; discriminate|].
    assert (Forall (λ x, (1 <= x)%Q ∧ (x <= inject_Z (len (dropna df)))%Q)
              ((λ r, inject_Z (complete_members df (time r) (group r)))
                 <$> (r0 :: rest))) as HF; [|exact HF].
    apply Forall_fmap, Forall_forall. intros r Hr. cbn.
    rewrite <- E in Hr. apply elem_of_dropna_rows_of in Hr as (Hr & _ & Hc).
    pose proof (complete_members_bounds df r Hr Hc).
    change 1%Q with (inject_Z 1). rewrite <- !Zle_Qle. lia.
Qed.

Lemma group_size_presence_witness :
  plain table_mixed_group
  ∧ dropna table_mixed_group ≠ []
  ∧ ∃ vs, group_size table_mixed_group = Ok vs
        ∧ Forall2 (λ i v,
                     (v = None ↔ dropna (rows_of i table_mixed_group) = [])
                     ∧ ∀ q, v = Some q →
                         (1 <= q)%Q ∧ (q <= inject_Z (len (dropna table_mixed_group)))%Q)
            (individuals table_mixed_group) vs.
Proof.
  assert (plain table_mixed_group) as H0 by (right; repeat constructor).
  assert (dropna table_mixed_group ≠ []) as H by (vm_compute; discriminate).
  split; [exact H0|]. split; [exact H|].
  exact (group_size_presence table_mixed_group H0 H).
Defined.

(** ** community_size *)

(** X18.  On a table whose rows are read as stored, [community_size]
    returns when no observation misses its own colour; on every table
    with an observation that misses its own colour it raises
    [KeyError]. *)
Theorem community_size_returns_iff (df : DataFrame) :
  (plain df → Forall (λ r, is_Some (icolor r)) df →
   ∃ vs, community_size df = Ok vs)
  ∧ (¬ Forall (λ r, is_Some (icolor r)) df → community_size df = Raise KeyError).
Proof.
  split.
  - intros Hp Hall. eexists. by apply community_size_no_missing.
  - intros Hn. apply (not_Forall_Exists _) in Hn.
    apply Exists_exists in Hn as (r & Hr & Hc).
    apply (community_size_raises df r Hr).
    unfold compose in Hc. cbn beta in Hc.
    destruct (icolor r); [|done]. exfalso. apply Hc. by eexists.
Qed.

Lemma community_size_returns_iff_witness :
  plain table_order
  ∧ Forall (λ r, is_Some (icolor r)) table_order
  ∧ ∃ vs, community_size table_order = Ok vs.
Proof.
  assert (plain table_order) as H0 by (left; reflexivity).
  assert (Forall (λ r, is_Some (icolor r)) table_order) as H
    by (repeat constructor; by eexists).
  split; [exact H0|]. split; [exact H|].
  exact (proj1 (community_size_returns_iff table_order) H0 H).
Defined.

(** X19.  On a table whose rows are read as stored, when no observation
    misses its own colour, every value of [community_size] is at least 1
    and at most the number of rows of the table. *)
Theorem community_size_bounds (df : DataFrame) :
  plain df →
  Forall (λ r, is_Some (icolor r)) df →
  ∃ vs, community_size df = Ok vs
      ∧ Forall (λ v, (1 <= v)%Q ∧ (v <= inject_Z (len df))%Q) vs.
Proof.
  intros Hp Hall. eexists. split; [by apply community_size_no_missing|].
  apply Forall_fmap, Forall_forall. intros i Hi. cbn.
  apply avg_between.
  - intros Hnil. apply fmap_nil_inv in Hnil.
    by apply rows_of_nonempty in Hi.
  - apply Forall_fmap, Forall_forall. intros r Hr. cbn.
    apply list_elem_of_filter in Hr as [_ Hr].
    assert (r ∈ filter (λ r', time_icolor r' = time_icolor r) df) as Hin
      by (by apply list_elem_of_filter).
    pose proof (len_filter_le (λ r', time_icolor r' = time_icolor r) df).
    change 1%Q with (inject_Z 1). rewrite <- !Zle_Qle. split; [|lia].
    destruct (filter _ df) as [|x l]; [by apply elem_of_nil in Hin|].
    unfold len. cbn. lia.
Qed.

Lemma community_size_bounds_witness :
  plain table_order
  ∧ Forall (λ r, is_Some (icolor r)) table_order
  ∧ ∃ vs, community_size table_order = Ok vs
        ∧ Forall (λ v, (1 <= v)%Q ∧ (v <= inject_Z (len table_order))%Q) vs.
Proof.
  assert (plain table_order) as H0 by (left; reflexivity).
  assert (Forall (λ r, is_Some (icolor r)) table_order) as H
    by (repeat constructor; by eexists).
  split; [exact H0|]. split; [exact H|].
  exact (community_size_bounds table_order H0 H).
Defined.

(** ** The time index *)

Lemma index_of_bounds (t : Z) (l : list Z) :
  t ∈ l → 0 ≤ index_of t l < len l.
Proof.
  unfold len. induction l as [|x l IH]; intros Ht.
  - by apply elem_of_nil in Ht.
  - cbn [index_of length]. rewrite Nat2Z.inj_succ. case_decide as Hx; [lia|].
    apply elem_of_cons in Ht as [->|Ht]; [done|]. specialize (IH Ht). lia.
Qed.

Lemma index_of_lookup (t : Z) (l : list Z) :
  t ∈ l → l !! Z.to_nat (index_of t l) = Some t.
Proof.
  induction l as [|x l IH]; intros Ht.
  - by apply elem_of_nil in Ht.
  - cbn [index_of]. case_decide as Hx; [by subst|].
    apply elem_of_cons in Ht as [->|Ht]; [done|].
    pose proof (index_of_bounds t l Ht).
    replace (Z.to_nat (1 + index_of t l)) with (S (Z.to_nat (index_of t l)))
      by lia.
    by apply IH.
Qed.

Lemma index_of_NoDup (t : Z) (l : list Z) (n : nat) :
  NoDup l → l !! n = Some t → index_of t l = Z.of_nat n.
Proof.
  intros Hnd. revert n. induction Hnd as [|x l Hx _ IH]; intros n; [done|].
  cbn [index_of]. destruct n as [|n]; cbn.
  - intros [= ->]. by rewrite decide_True.
  - intros Hn. rewrite decide_False.
    + rewrite (IH n Hn). lia.
    + intros ->. apply Hx. by eapply list_elem_of_lookup_2.
Qed.

Lemma index_of_mono (t1 t2 : Z) (l : list Z) :
  Sorted Z.le l → t1 ∈ l → t2 ∈ l → t1 ≤ t2 → index_of t1 l ≤ index_of t2 l.
Proof.
  intros Hs. apply (Sorted_StronglySorted _) in Hs.
  induction Hs as [|x l _ IH Hall]; intros H1 H2 Hle.
  - by apply elem_of_nil in H1.
  - cbn [index_of]. rewrite Forall_forall in Hall.
    destruct (decide (x = t1)) as [->|Hx1].
    + case_decide; [lia|].
      apply elem_of_cons in H2 as [->|H2]; [done|].
      pose proof (index_of_bounds t2 l H2). lia.
    + apply elem_of_cons in H1 as [->|H1]; [done|].
      destruct (decide (x = t2)) as [->|Hx2].
      * specialize (Hall t1 H1). lia.
      * apply elem_of_cons in H2 as [->|H2]; [done|].
        specialize (IH H1 H2 Hle). lia.
Qed.

Lemma lookup_imap_rank_None (l : list Z) (k : nat) (t : Z) :
  t ∉ l →
  (list_to_map (imap (λ i x, (x, Z.of_nat (k + i))) l) : gmap Z Z) !! t = None.
Proof.
  intros Ht. apply not_elem_of_list_to_map_1.
  rewrite fmap_imap. intros Hin.
  apply elem_of_lookup_imap in Hin as (i & x & -> & Hx).
  apply Ht. cbn. by eapply list_elem_of_lookup_2.
Qed.

Lemma lookup_time_index_elem (df : DataFrame) (t : Z) :
  t ∈ unique (time <$> df) →
  time_index df !! t = Some (index_of t (unique (time <$> df))).
Proof. intros Ht. exact (lookup_imap_rank _ 0 t Ht). Qed.

Lemma lookup_time_index_None (df : DataFrame) (t : Z) :
  t ∉ unique (time <$> df) → time_index df !! t = None.
Proof. intros Ht. exact (lookup_imap_rank_None _ 0 t Ht). Qed.

(** X20.  The time index is the numbering of the distinct times in order
    of first occurrence: it maps [t] to [n] exactly when [t] is the
    [n]-th distinct time of the table. *)
Theorem time_index_rank (df : DataFrame) (t : Z) (n : nat) :
  time_index df !! t = Some (Z.of_nat n)
  ↔ unique (time <$> df) !! n = Some t.
Proof.
  split.
  - intros Hl. destruct (decide (t ∈ unique (time <$> df))) as [Ht|Ht].
    + rewrite (lookup_time_index_elem df t Ht) in Hl. injection Hl as Hl.
      pose proof (index_of_lookup t _ Ht) as Hix.
      replace (Z.to_nat (index_of t (unique (time <$> df)))) with n in Hix
        by lia.
      done.
    + by rewrite (lookup_time_index_None df t Ht) in Hl.
  - intros Hn. rewrite lookup_time_index_elem.
    + f_equal. by apply index_of_NoDup; [apply NoDup_unique|].
    + by eapply list_elem_of_lookup_2.
Qed.

Lemma time_index_rank_witness :
  unique (time <$> table_order) !! 1%nat = Some 2
  ∧ time_index table_order !! 2 = Some (Z.of_nat 1).
Proof.
  assert (unique (time <$> table_order) !! 1%nat = Some 2) as H by reflexivity.
  split; [exact H|]. exact (proj2 (time_index_rank table_order 2 1) H).
Defined.

(** ** individual_apparency *)

(** X21.  [individual_apparency] returns exactly when no observation
    misses its own colour; otherwise it raises [KeyError]. *)
Theorem individual_apparency_returns_iff (df : DataFrame) :
  (Forall (λ r, is_Some (icolor r)) df → ∃ vs, individual_apparency df = Ok vs)
  ∧ (¬ Forall (λ r, is_Some (icolor r)) df
     → individual_apparency df = Raise KeyError).
Proof.
  split.
  - intros Hall. eexists. by apply individual_apparency_no_missing.
  - intros Hn. apply (not_Forall_Exists _) in Hn.
    apply Exists_exists in Hn as (r & Hr & Hc).
    apply (individual_apparency_raises df r Hr).
    unfold compose in Hc. cbn beta in Hc.
    destruct (icolor r); [|done]. exfalso. apply Hc. by eexists.
Qed.

Lemma individual_apparency_returns_iff_witness :
  ¬ Forall (λ r, is_Some (icolor r)) table_late_icolor
  ∧ individual_apparency table_late_icolor = Raise KeyError.
Proof.
  assert (¬ Forall (λ r, is_Some (icolor r)) table_late_icolor) as H.
  { intros H. apply Forall_cons in H as [[c Hc] _]. discriminate Hc. }
  split; [exact H|].
  exact (proj2 (individual_apparency_returns_iff table_late_icolor) H).
Defined.

Lemma duration_bounds (df : DataFrame) (c : cell) :
  Sorted Z.le (unique (time <$> df)) → c ∈ icolor <$> df →
  1 ≤ duration df c ≤ len (unique (time <$> df)).
Proof.
  intros Hs Hc. apply list_elem_of_fmap in Hc as (r & -> & Hr).
  assert (times_of df (icolor r) ≠ []) as Hne.
  { intros Hnil.
    assert (time r ∈ times_of df (icolor r)) as Hin.
    { apply list_elem_of_fmap. exists r. split; [done|].
      by apply list_elem_of_filter. }
    rewrite Hnil in Hin. by apply elem_of_nil in Hin. }
  destruct (extremes_greatest_least _ Hne) as (Hhi & Hlo & Hbetween).
  assert (∀ t, t ∈ times_of df (icolor r) → t ∈ unique (time <$> df)) as Hsub.
  { intros t Ht. apply elem_of_unique.
    apply list_elem_of_fmap in Ht as (r' & -> & Hr').
    apply list_elem_of_filter in Hr' as [_ Hr'].
    apply list_elem_of_fmap. by exists r'. }
  unfold duration, time_rank.
  pose proof (index_of_bounds _ _ (Hsub _ Hhi)).
  pose proof (index_of_bounds _ _ (Hsub _ Hlo)).
  pose proof (index_of_mono _ _ _ Hs (Hsub _ Hlo) (Hsub _ Hhi)
                (proj2 (Hbetween _ Hlo))).
  lia.
Qed.

(** X22.  When the distinct times first occur in increasing order and no
    observation misses its own colour, every value of
    [individual_apparency] is at least 1 and at most the number of
    distinct times. *)
Theorem individual_apparency_bounds (df : DataFrame) :
  Sorted Z.le (unique (time <$> df)) →
  Forall (λ r, is_Some (icolor r)) df →
  ∃ vs, individual_apparency df = Ok vs
      ∧ Forall (λ v, (1 <= v)%Q
                     ∧ (v <= inject_Z (len (unique (time <$> df))))%Q) vs.
Proof.
  intros Hs Hall. eexists. split; [by apply individual_apparency_no_missing|].
  apply Forall_fmap, Forall_forall. intros i Hi. cbn.
  pose proof (rows_of_nonempty df i Hi) as Hne.
  apply avg_between.
  - intros Hnil. apply fmap_nil_inv in Hnil.
    destruct (rows_of i df) as [|r0 rest]; [done|]. by cbn in Hnil.
  - apply Forall_fmap, Forall_forall. intros c Hc. cbn.
    apply elem_of_unique, list_elem_of_fmap in Hc as (r & -> & Hr).
    apply list_elem_of_filter in Hr as [_ Hr].
    assert (icolor r ∈ icolor <$> df) as Hin
      by (apply list_elem_of_fmap; by exists r).
    pose proof (duration_bounds df (icolor r) Hs Hin).
    change 1%Q with (inject_Z 1). rewrite <- !Zle_Qle. lia.
Qed.

Lemma individual_apparency_bounds_witness :
  Sorted Z.le (unique (time <$> table_scenario))
  ∧ Forall (λ r, is_Some (icolor r)) table_scenario
  ∧ ∃ vs, individual_apparency table_scenario = Ok vs
        ∧ Forall (λ v, (1 <= v)%Q
                       ∧ (v <= inject_Z (len (unique (time <$> table_scenario))))%Q) vs.
Proof.
  assert (Sorted Z.le (unique (time <$> table_scenario))) as H1.
  { change (unique (time <$> table_scenario)) with [1; 2].
    repeat constructor. lia. }
  assert (Forall (λ r, is_Some (icolor r)) table_scenario) as H2
    by (repeat constructor; by eexists).
  split; [exact H1|]. split; [exact H2|].
  exact (individual_apparency_bounds table_scenario H1 H2).
Defined.

(** ** compute_individual_metrics *)

(** X23.  [compute_individual_metrics] returns exactly when the eight
    metrics that can raise all return: the final assembly never fails on
    its own, because every column has one entry per distinct
    individual. *)
Theorem compute_individual_metrics_returns_iff (df : DataFrame) :
  (∃ m, compute_individual_metrics df = Ok m)
  ↔ (∃ c, absenteeism df = Ok c)
    ∧ (∃ c, inquisitiveness df = Ok c)
    ∧ (∃ c, avg_num_peers df (compute_subgroups df) = Ok c)
    ∧ (∃ c, peer_synchrony df (compute_subgroups df) = Ok c)
    ∧ (∃ c, group_size df = Ok c)
    ∧ (∃ c, group_homogeneity df = Ok c)
    ∧ (∃ c, individual_apparency df = Ok c)
    ∧ (∃ c, community_size df = Ok c).
Proof.
  split.
  - intros [m Hm].
    destruct (compute_individual_metrics_columns df m Hm)
      as (_ & H1 & H2 & _ & H4 & H5 & H6 & H7 & H8 & _ & H10).
    repeat split; by eexists.
  - intros ([c1 H1] & [c2 H2] & [c4 H4] & [c5 H5] & [c6 H6] & [c7 H7]
            & [c8 H8] & [c10 H10]).
    eexists. by apply compute_individual_metrics_returns.
Qed.

Lemma compute_individual_metrics_returns_iff_witness :
  (∃ m, compute_individual_metrics table_order = Ok m)
  ∧ ∃ c, community_size table_order = Ok c.
Proof.
  assert (∃ m, compute_individual_metrics table_order = Ok m) as H.
  { eexists. vm_compute. reflexivity. }
  split; [exact H|].
  exact (proj2 (proj2 (proj2 (proj2 (proj2 (proj2 (proj2
    (proj1 (compute_individual_metrics_returns_iff table_order) H)))))))).
Defined.

Lemma complete_table_rows (df : DataFrame) (i : Z) :
  Forall (λ r, complete r = true) df → dropna (rows_of i df) = rows_of i df.
Proof.
  intros Hall. unfold dropna. unfold rows_of at 1.
  rewrite list_filter_filter. apply filter_ext_elem_of. intros r Hr.
  rewrite Forall_forall in Hall. specialize (Hall r Hr). tauto.
Qed.

Lemma absenteeism_ok (df : DataFrame) :
  plain df → Forall (time_has_gcolor df) df → ∃ vs, absenteeism df = Ok vs.
Proof.
  intros Hp Hall. eexists. unfold absenteeism, groupby_individual.
  rewrite mapM_fmap. apply mapM_Ok_fmap, Forall_forall. intros i Hi. cbn.
  rewrite iterrows_rows_of by done.
  rewrite absent_loop_count.
  - cbn. apply truediv_nonzero.
    pose proof (len_pos _ (rows_of_nonempty df i Hi)). lia.
  - unfold rows_of. rewrite Forall_forall in *. intros r Hr.
    apply list_elem_of_filter in Hr as [_ Hr]. by apply Hall.
Qed.

Lemma inquisitiveness_ok (df : DataFrame) :
  Forall (λ i, complete_rows i df ≠ 0) (individuals df) →
  ∃ vs, inquisitiveness df = Ok vs.
Proof.
  intros Hden. eexists. unfold inquisitiveness, groupby_individual.
  rewrite mapM_fmap. apply mapM_Ok_fmap.
  eapply Forall_impl; [exact Hden|]. intros i Hi. cbn.
  by apply truediv_nonzero.
Qed.

Lemma avg_num_peers_ok (df : DataFrame) :
  ∃ vs, avg_num_peers df (compute_subgroups df) = Ok vs.
Proof.
  eexists. unfold avg_num_peers, groupby_individual.
  rewrite mapM_fmap. apply mapM_Ok_fmap, Forall_forall. intros i _. cbn.
  unfold iterrows. rewrite mapM_fmap.
  rewrite (mapM_Ok_fmap _
    (λ r, inject_Z (Z.of_nat (size (subgroup df (subgroup_key (read df r)))) - 1)));
    [done|].
  apply Forall_forall. intros r Hr.
  apply elem_of_dropna_rows_of in Hr as (Hr & _ & Hc). cbn.
  change (time (read df r), group (read df r), icolor (read df r))
    with (subgroup_key (read df r)).
  by rewrite getitem_compute_subgroups_read.
Qed.

(** X24.  On a non-empty table in which no observation has a missing
    field, [compute_individual_metrics] returns; its identity column
    lists the individuals in order of first appearance and every metric
    column has one entry per individual. *)
Theorem compute_individual_metrics_complete (df : DataFrame) :
  df ≠ [] →
  Forall (λ r, complete r = true) df →
  ∃ m, compute_individual_metrics df = Ok m
     ∧ m_individual m = unique (individual <$> df)
     ∧ Forall (λ n, n = length (m_individual m))
         [length (m_absenteeism m); length (m_inquisitiveness m);
          length (m_community_stay m); length (m_avg_num_peers m);
          length (m_peer_synchrony m); length (m_group_size m);
          length (m_group_homogeneity m); length (m_individual_apparency m);
          length (m_cyclicity m); length (m_community_size m)].
Proof.
  intros Hne Hall. pose proof Hall as Hall'. rewrite Forall_forall in Hall'.
  pose proof (plain_complete df Hall) as Hp.
  assert (Forall (λ r, is_Some (icolor r)) df) as Hic.
  { apply Forall_forall. intros r Hr. specialize (Hall' r Hr).
    unfold complete in Hall'. apply andb_true_iff in Hall' as [_ H].
    by destruct (icolor r). }
  destruct (absenteeism_ok df Hp) as [c1 H1].
  { apply Forall_forall. intros r Hr. apply Exists_exists. exists r.
    split; [done|]. split; [done|]. specialize (Hall' r Hr).
    unfold complete in Hall'. apply andb_true_iff in Hall' as [H _].
    apply andb_true_iff in H as [_ H]. by destruct (gcolor r). }
  destruct (inquisitiveness_ok df) as [c2 H2].
  { apply Forall_forall. intros i Hi. unfold complete_rows.
    rewrite complete_table_rows by done.
    pose proof (len_pos _ (rows_of_nonempty df i Hi)). lia. }
  destruct (avg_num_peers_ok df) as [c4 H4].
  assert (guarded df) as Hg.
  { apply Forall_forall. intros r Hr _. by apply Hall'. }
  pose proof (peer_synchrony_guarded df Hp Hg) as H5.
  assert (dropna df ≠ []) as Hd.
  { destruct df as [|r0 rest]; [done|]. unfold dropna.
    rewrite filter_cons_True; [done|]. apply Hall'. left. }
  pose proof (group_size_values df Hp Hd) as H6.
  pose proof (group_homogeneity_values df Hp) as H7.
  pose proof (individual_apparency_no_missing df Hic) as H8.
  pose proof (community_size_no_missing df Hp Hic) as H10.
  eexists. split;
    [exact (compute_individual_metrics_returns df _ _ _ _ _ _ _ _
              H1 H2 H4 H5 H6 H7 H8 H10)|].
  split; [done|]. cbn [m_individual m_absenteeism m_inquisitiveness
    m_community_stay m_avg_num_peers m_peer_synchrony m_group_size
    m_group_homogeneity m_individual_apparency m_cyclicity m_community_size].
  destruct (metric_lengths df)
    as (L1 & L2 & L3 & L4 & L5 & L6 & L7 & L8 & L9 & L10).
  repeat constructor; auto.
Qed.

Lemma compute_individual_metrics_complete_witness :
  table_scenario ≠ []
  ∧ Forall (λ r, complete r = true) table_scenario
  ∧ ∃ m, compute_individual_metrics table_scenario = Ok m
       ∧ m_individual m = unique (individual <$> table_scenario)
       ∧ Forall (λ n, n = length (m_individual m))
           [length (m_absenteeism m); length (m_inquisitiveness m);
            length (m_community_stay m); length (m_avg_num_peers m);
            length (m_peer_synchrony m); length (m_group_size m);
            length (m_group_homogeneity m); length (m_individual_apparency m);
            length (m_cyclicity m); length (m_community_size m)].
Proof.
  assert (table_scenario ≠ []) as H1 by discriminate.
  assert (Forall (λ r, complete r = true) table_scenario) as H2
    by (repeat constructor).
  split; [exact H1|]. split; [exact H2|].
  exact (compute_individual_metrics_complete table_scenario H1 H2).
Defined.
